(** * fixedlength: decoding fixed-width text lines into Go structs

    A shallow embedding of the field coercion of package [fixedlength]
    ([setFieldValue]) together with the parts of Go's [strconv] and
    [reflect] packages it calls, and of the record mapper that drives it. *)

From Stdlib Require Import ZArith String Ascii List Bool Lia.
From Stdlib Require Import DecimalString DecimalZ DecimalN DecimalPos.
From stdpp Require Import base decidable option list sorting strings.

#[local] Set Warnings "-register-all".

Local Open Scope string_scope.
Local Open Scope Z_scope.

(** ** Package strconv

    [strconv] belongs to Go's standard library.  [ParseUint], [ParseInt]
    and [ParseBool] follow the library's code statement by statement;
    [uint64] arithmetic is written out modulo [2^64].  The base is a
    [positive]: the prefix detection of base 0 is never requested by the
    package, which always passes base 10. *)
Module strconv.

Inductive ErrKind : Type :=
| ErrSyntax
| ErrRange
| ErrBase (base : Z)
| ErrBitSize (bitSize : Z).

(** [*strconv.NumError] *)
Record NumError : Type := mkNumError
  { Func : string; Num : string; Err : ErrKind }.

Definition syntaxError (fn str : string) : NumError := mkNumError fn str ErrSyntax.
Definition rangeError (fn str : string) : NumError := mkNumError fn str ErrRange.
Definition baseError (fn str : string) (base : Z) : NumError :=
  mkNumError fn str (ErrBase base).
Definition bitSizeError (fn str : string) (bitSize : Z) : NumError :=
  mkNumError fn str (ErrBitSize bitSize).

(** [strconv.IntSize], the width of [int] and [uint] (64-bit platform). *)
Definition IntSize : Z := 64.

Definition maxUint64 : Z := 2 ^ 64 - 1.

(** Conversion to [uint64]. *)
Definition uint64 (x : Z) : Z := x mod 2 ^ 64.

(** Conversion to [int64]; negation of an [int64] is [int64 (- n)]. *)
Definition int64 (x : Z) : Z :=
  let u := x mod 2 ^ 64 in if u <? 2 ^ 63 then u else u - 2 ^ 64.

Definition byte_val (c : ascii) : Z := Z.of_N (N_of_ascii c).

(** [lower(c)] is [c | ('x' - 'X')]. *)
Definition lower (c : ascii) : Z := Z.lor (byte_val c) 32.

(** The value of one digit, [None] where the library's loop reports a
    syntax error for the byte. *)
Definition digit (c : ascii) : option Z :=
  if (48 <=? byte_val c) && (byte_val c <=? 57) then Some (byte_val c - 48)
  else if (97 <=? lower c) && (lower c <=? 122) then Some (lower c - 97 + 10)
  else None.

(** The loop [for _, c := range []byte(s)] of [ParseUint], with the
    accumulator [n]. *)
Fixpoint parseDigits (s0 : string) (base cutoff maxVal n : Z) (s : string)
  : Z * option NumError :=
  match s with
  | EmptyString => (n, None)
  | String c rest =>
      match digit c with
      | None => (0, Some (syntaxError "ParseUint" s0))
      | Some d =>
          if base <=? d then (0, Some (syntaxError "ParseUint" s0))
          else if cutoff <=? n then (maxVal, Some (rangeError "ParseUint" s0))
          else
            let n' := uint64 (n * base) in
            let n1 := uint64 (n' + d) in
            if (n1 <? n') || (maxVal <? n1)
            then (maxVal, Some (rangeError "ParseUint" s0))
            else parseDigits s0 base cutoff maxVal n1 rest
      end
  end.

Definition ParseUint (s : string) (base : positive) (bitSize : Z)
  : Z * option NumError :=
  if decide (s = "") then (0, Some (syntaxError "ParseUint" s))
  else if negb ((2 <=? Z.pos base) && (Z.pos base <=? 36))
  then (0, Some (baseError "ParseUint" s (Z.pos base)))
  else if (bitSize <? 0) || (64 <? bitSize)
  then (0, Some (bitSizeError "ParseUint" s bitSize))
  else
    let bitSize := if bitSize =? 0 then IntSize else bitSize in
    let cutoff := maxUint64 / Z.pos base + 1 in
    let maxVal := uint64 (uint64 (Z.shiftl 1 bitSize) - 1) in
    parseDigits s (Z.pos base) cutoff maxVal 0 s.

Definition ParseInt (s : string) (base : positive) (bitSize : Z)
  : Z * option NumError :=
  match s with
  | EmptyString => (0, Some (syntaxError "ParseInt" s))
  | String c rest =>
      let s0 := s in
      let '(neg, s) :=
        if Ascii.eqb c "+" then (false, rest)
        else if Ascii.eqb c "-" then (true, rest)
        else (false, s) in
      let '(un, err) := ParseUint s base bitSize in
      let early :=
        match err with
        | Some e =>
            match Err e with
            | ErrRange => None
            | k => Some (mkNumError "ParseInt" s0 k)
            end
        | None => None
        end in
      match early with
      | Some e => (0, Some e)
      | None =>
          let bitSize := if bitSize =? 0 then IntSize else bitSize in
          let cutoff := uint64 (Z.shiftl 1 (bitSize - 1)) in
          if negb neg && (cutoff <=? un)
          then (int64 (cutoff - 1), Some (rangeError "ParseInt" s0))
          else if neg && (cutoff <? un)
          then (int64 (- int64 cutoff), Some (rangeError "ParseInt" s0))
          else
            let n := int64 un in
            ((if neg then int64 (- n) else n), None)
      end
  end.

(** The two [case] lists of the [switch] in [ParseBool]. *)
Definition trueTokens : list string := ["1"; "t"; "T"; "true"; "TRUE"; "True"].
Definition falseTokens : list string := ["0"; "f"; "F"; "false"; "FALSE"; "False"].

Definition ParseBool (str : string) : bool * option NumError :=
  if decide (str ∈ trueTokens) then (true, None)
  else if decide (str ∈ falseTokens) then (false, None)
  else (false, Some (syntaxError "ParseBool" str)).

End strconv.

(** ** Package reflect: kinds and the flags of a [reflect.Value] *)
Module reflect.

(** [reflect.Kind] *)
Inductive Kind : Type :=
| Invalid | Bool
| Int | Int8 | Int16 | Int32 | Int64
| Uint | Uint8 | Uint16 | Uint32 | Uint64 | Uintptr
| Float32 | Float64 | Complex64 | Complex128
| Array | Chan | Func | Interface | Map | Ptr | Slice | String | Struct
| UnsafePointer.

(** The part of a value's flag word that decides whether it may be
    written: [flagAddr] and [flagRO] (set on values reached through an
    unexported struct field). *)
Record flag : Type := mkFlag { flagAddr : bool; flagRO : bool }.

Definition CanAddr (f : flag) : bool := flagAddr f.
Definition CanSet (f : flag) : bool := flagAddr f && negb (flagRO f).

(** The flag of [v.Elem()] for a pointer [v]: the pointee is addressable
    and inherits the read-only bit. *)
Definition ElemFlag (f : flag) : flag := mkFlag true (flagRO f).

(** Two's-complement truncation to [w] bits, as the conversions
    [int8(x)], [uint16(x)], ... of [SetInt] and [SetUint] perform. *)
Definition truncS (w x : Z) : Z :=
  let u := x mod 2 ^ w in if u <? 2 ^ (w - 1) then u else u - 2 ^ w.
Definition truncU (w x : Z) : Z := x mod 2 ^ w.

(** Bit width of an integer kind. *)
Definition bits (k : Kind) : Z :=
  match k with
  | Int8 | Uint8 => 8
  | Int16 | Uint16 => 16
  | Int32 | Uint32 => 32
  | Int64 | Uint64 => 64
  | _ => strconv.IntSize
  end.

End reflect.

Global Instance Kind_eq_dec : EqDecision reflect.Kind.
Proof. solve_decision. Defined.
Global Instance ErrKind_eq_dec : EqDecision strconv.ErrKind.
Proof. solve_decision. Defined.
Global Instance NumError_eq_dec : EqDecision strconv.NumError.
Proof. solve_decision. Defined.

(** ** Errors *)

(** Go [error] values the package produces or passes on.  The first four
    are the package's sentinel variables; [Join] is [errors.Join] of two
    errors, [Errorf e k] is [fmt.Errorf("%w: %s", e, k)], [NumErr] a
    [*strconv.NumError], [Custom] an error made by user code.  The last
    two are modelled from the spec, the code that makes them not being
    among the sources: [ErrInvalidRange] is the InvalidRangeDeclaration
    kind of section 4.1 with its message, [FieldError] the Error Record
    of section 3 with the field, the raw slice and the cause. *)
Inductive error : Type :=
| ErrInvalidBooleanValue
| ErrInvalidIntValue
| ErrInvalidFloatValue
| ErrUnsupportedKind
| NumErr (e : strconv.NumError)
| Join (e1 e2 : error)
| Errorf (e : error) (k : reflect.Kind)
| Custom (msg : string)
| ErrInvalidRange (msg : string)
| FieldError (field : string) (raw : string) (cause : error).

Global Instance error_eq_dec : EqDecision error.
Proof. solve_decision. Defined.

(** [errors.Is]: [target] is [err] or is reached by unwrapping it. *)
Fixpoint Is (err target : error) : bool :=
  if decide (err = target) then true
  else match err with
       | Join e1 e2 => Is e1 target || Is e2 target
       | Errorf e _ => Is e target
       | FieldError _ _ e => Is e target
       | _ => false
       end.

(** ** Range descriptors and the line slicer

    The parser of range declarations and the slicing of the line are not
    among the sources; their definitions follow the specification. *)

(** Modelled from the spec: the Range Descriptor of section 3, a start
    offset and an end that is an offset or the rest-of-line sentinel. *)
Inductive RangeEnd : Type :=
| EndAt (e : Z)
| RestOfLine.

Record Range : Type := mkRange { rstart : Z; rend : RangeEnd }.

Definition isDigit (c : ascii) : bool :=
  (48 <=? strconv.byte_val c) && (strconv.byte_val c <=? 57).

Fixpoint digitsValue (acc : Z) (s : string) : option Z :=
  match s with
  | EmptyString => Some acc
  | String c rest =>
      if isDigit c then digitsValue (10 * acc + (strconv.byte_val c - 48)) rest
      else None
  end.

(** Modelled from the spec: "parse as an integer" of section 4.1, which
    names no width: an optional minus sign and one or more decimal digits. *)
Definition parseInteger (s : string) : option Z :=
  match s with
  | EmptyString => None
  | String c rest =>
      if Ascii.eqb c "-" then
        match rest with
        | EmptyString => None
        | _ => option_map Z.opp (digitsValue 0 rest)
        end
      else digitsValue 0 s
  end.

(** The two sides of the first [sep] in [s]. *)
Fixpoint cut (sep : ascii) (s : string) : option (string * string) :=
  match s with
  | EmptyString => None
  | String c rest =>
      if Ascii.eqb c sep then Some (EmptyString, rest)
      else match cut sep rest with
           | Some (a, b) => Some (String c a, b)
           | None => None
           end
  end.

(** Modelled from the spec: the Range Descriptor parser of section 4.1 is
    not among the sources.  A declaration is ["<start>,<end>"]; [start]
    must be a non-negative integer, [end] an integer with [-1] the
    rest-of-line sentinel; rejected are the empty declaration, non-numeric
    components, [start == end], [start > end] unless [end] is the
    sentinel, and any [end] below [-1]. *)
Definition parseRange (decl : string) : error + Range :=
  if decide (decl = "") then inl (ErrInvalidRange "empty declaration")
  else
    match cut "," decl with
    | None => inl (ErrInvalidRange "malformed declaration")
    | Some (a, b) =>
        match parseInteger a, parseInteger b with
        | Some s, Some e =>
            if s <? 0 then inl (ErrInvalidRange "negative start")
            else if e =? -1 then inr (mkRange s RestOfLine)
            else if e <? -1 then inl (ErrInvalidRange "end below -1")
            else if s =? e then inl (ErrInvalidRange "start equals end")
            else if e <? s then inl (ErrInvalidRange "start after end")
            else inr (mkRange s (EndAt e))
        | _, _ => inl (ErrInvalidRange "non-numeric component")
        end
    end.

(** Go's slice expression [s[lo:hi]] with both bounds clamped to the
    length of [s]. *)
Definition clampSlice (lo hi : Z) (s : string) : string :=
  let n := Z.of_nat (String.length s) in
  let lo := Z.min lo n in
  let hi := Z.min hi n in
  String.substring (Z.to_nat lo) (Z.to_nat (hi - lo)) s.

(** Modelled from the spec: the Line Slicer of section 4.2 with the
    recommended clamping policy: [line[start:end]], or [line[start:]] for
    the sentinel, a short line yielding a shorter or empty slice. *)
Definition sliceLine (r : Range) (line : string) : string :=
  match rend r with
  | EndAt e => clampSlice (rstart r) e line
  | RestOfLine => clampSlice (rstart r) (Z.of_nat (String.length line)) line
  end.

(** ** Decimal numerals *)

(** The decimal text of an integer ([strconv.Itoa]). *)
Definition Itoa (z : Z) : string := NilZero.string_of_int (Z.to_int z).

(** The value of the decimal digits [d] read after the digits that made
    [acc]. *)
Fixpoint decimalValue (acc : Z) (d : Decimal.uint) : Z :=
  match d with
  | Decimal.Nil => acc
  | Decimal.D0 d => decimalValue (10 * acc) d
  | Decimal.D1 d => decimalValue (10 * acc + 1) d
  | Decimal.D2 d => decimalValue (10 * acc + 2) d
  | Decimal.D3 d => decimalValue (10 * acc + 3) d
  | Decimal.D4 d => decimalValue (10 * acc + 4) d
  | Decimal.D5 d => decimalValue (10 * acc + 5) d
  | Decimal.D6 d => decimalValue (10 * acc + 6) d
  | Decimal.D7 d => decimalValue (10 * acc + 7) d
  | Decimal.D8 d => decimalValue (10 * acc + 8) d
  | Decimal.D9 d => decimalValue (10 * acc + 9) d
  end.

Fixpoint allDigits (s : string) : bool :=
  match s with
  | EmptyString => true
  | String c rest => isDigit c && allDigits rest
  end.

(** The text of a decimal integer: an optional minus sign and one or
    more digits. *)
Definition isNumeral (s : string) : bool :=
  match s with
  | EmptyString => false
  | String c rest =>
      if Ascii.eqb c "-" then negb (bool_decide (rest = "")) && allDigits rest
      else allDigits s
  end.

(** The value of the text of an unsigned base-10 integer: one or more
    digits. *)
Definition unsignedValue (s : string) : option Z :=
  match s with
  | EmptyString => None
  | _ => digitsValue 0 s
  end.

(** The value of the text of a signed base-10 integer: an optional sign
    [+] or [-] and one or more digits. *)
Definition signedValue (s : string) : option Z :=
  match s with
  | EmptyString => None
  | String c rest =>
      if Ascii.eqb c "+" then unsignedValue rest
      else if Ascii.eqb c "-" then option_map Z.opp (unsignedValue rest)
      else digitsValue 0 s
  end.

(** [z] fits a signed integer of [b] bits. *)
Definition inWidth (b z : Z) : bool := (- 2 ^ (b - 1) <=? z) && (z <? 2 ^ (b - 1)).

(** [s] behind [n] zeros. *)
Fixpoint zeroPad (n : nat) (s : string) : string :=
  match n with
  | O => s
  | S n => String "0" (zeroPad n s)
  end.

(** The bytes of a string. *)
Fixpoint bytes (s : string) : list ascii :=
  match s with
  | EmptyString => []
  | String c rest => c :: bytes rest
  end.

(** ** Floating point

    Floating point is kept abstract: [float64] is the type of Go's
    [float64] values, [ParseFloat] is [strconv.ParseFloat], [float32of]
    the conversion [float64(float32(x))] that [SetFloat] applies to a
    [float32] field, and [floatIsZero] the test [reflect.Value.IsZero]
    makes on a float, which holds of the zero value [floatZero]. *)
Class FloatOps : Type := mkFloatOps
  { float64 : Type;
    floatZero : float64;
    ParseFloat : string -> Z -> float64 * option strconv.NumError;
    float32of : float64 -> float64;
    floatIsZero : float64 -> bool;
    floatZero_isZero : floatIsZero floatZero = true }.

Section Fixedlength.

Context {F : FloatOps}.

(** *** Values *)

(** The contents of the storage a [reflect.Value] refers to.  Values of
    the kinds [setFieldValue] has no case for are opaque: only whether
    they are their type's zero value is ever observed. *)
Inductive Val : Type :=
| VBool (b : bool)
| VInt (n : Z)
| VUint (n : Z)
| VFloat (x : float64)
| VString (s : string)
| VPtr (p : option Val)
| VStruct (fs : list Val)
| VOther (zero : bool).

(** [Unmarshal(data []byte) error] with a pointer receiver: the method
    reads and may rewrite the storage of the receiver's pointee. *)
Definition Unmarshaler : Type := string -> Val -> Val * option error.

Record StructField (T : Type) : Type := mkStructField
  { Name : string; Tag : option string; Typ : T }.
Arguments mkStructField {T}.
Arguments Name {T}.
Arguments Tag {T}.
Arguments Typ {T}.

(** Go types as [reflect.Type] presents them.  [TBasic k um] is a type
    of kind [k], for [k] other than [Ptr] and [Struct]; [um] is the
    method [Unmarshal] in the method set of the pointer to the type,
    when it has one. *)
Inductive GoType : Type :=
| TBasic (k : reflect.Kind) (um : option Unmarshaler)
| TPtr (elem : GoType)
| TStruct (fields : list (StructField GoType)) (um : option Unmarshaler).

Definition Kind (t : GoType) : reflect.Kind :=
  match t with
  | TBasic k _ => k
  | TPtr _ => reflect.Ptr
  | TStruct _ _ => reflect.Struct
  end.

Definition methodUnmarshal (t : GoType) : option Unmarshaler :=
  match t with
  | TBasic _ um | TStruct _ um => um
  | TPtr _ => None
  end.

(** [reflect.Zero(t)]: the zero value of a type. *)
Fixpoint Zero (t : GoType) : Val :=
  match t with
  | TBasic k _ =>
      match k with
      | reflect.Bool => VBool false
      | reflect.Int | reflect.Int8 | reflect.Int16 | reflect.Int32
      | reflect.Int64 => VInt 0
      | reflect.Uint | reflect.Uint8 | reflect.Uint16 | reflect.Uint32
      | reflect.Uint64 | reflect.Uintptr => VUint 0
      | reflect.Float32 | reflect.Float64 => VFloat floatZero
      | reflect.String => VString ""
      | _ => VOther true
      end
  | TPtr _ => VPtr None
  | TStruct fields _ => VStruct (map (fun f => Zero (Typ f)) fields)
  end.

(** [reflect.Value.IsZero] *)
Fixpoint IsZero (v : Val) : bool :=
  match v with
  | VBool b => negb b
  | VInt n | VUint n => n =? 0
  | VFloat x => floatIsZero x
  | VString s => bool_decide (s = "")
  | VPtr p => match p with None => true | Some _ => false end
  | VStruct fs => forallb IsZero fs
  | VOther zero => zero
  end.

(** [reflect.Value.IsNil] and [reflect.Value.Elem] on a pointer. *)
Definition IsNil (v : Val) : bool :=
  match v with VPtr None => true | _ => false end.

Definition Elem (v : Val) : Val :=
  match v with VPtr (Some x) => x | _ => VOther true end.

(** The setters of [reflect.Value] ([Set_] is [Value.Set]): [None] is
    the panic of [mustBeAssignable] (or of a kind the setter does not
    handle), [Some v] the new contents of the storage. *)
Definition Set_ (f : reflect.flag) (x : Val) : option Val :=
  if reflect.CanSet f then Some x else None.

Definition SetInt (k : reflect.Kind) (f : reflect.flag) (x : Z) : option Val :=
  if reflect.CanSet f then
    match k with
    | reflect.Int | reflect.Int8 | reflect.Int16 | reflect.Int32
    | reflect.Int64 => Some (VInt (reflect.truncS (reflect.bits k) x))
    | _ => None
    end
  else None.

Definition SetUint (k : reflect.Kind) (f : reflect.flag) (x : Z) : option Val :=
  if reflect.CanSet f then
    match k with
    | reflect.Uint | reflect.Uint8 | reflect.Uint16 | reflect.Uint32
    | reflect.Uint64 | reflect.Uintptr =>
        Some (VUint (reflect.truncU (reflect.bits k) x))
    | _ => None
    end
  else None.

Definition SetFloat (k : reflect.Kind) (f : reflect.flag) (x : float64) : option Val :=
  if reflect.CanSet f then
    match k with
    | reflect.Float32 => Some (VFloat (float32of x))
    | reflect.Float64 => Some (VFloat x)
    | _ => None
    end
  else None.

Definition SetString (f : reflect.flag) (x : string) : option Val :=
  if reflect.CanSet f then Some (VString x) else None.

Definition SetBool (f : reflect.flag) (x : bool) : option Val :=
  if reflect.CanSet f then Some (VBool x) else None.

(** *** The type coercer *)

(** What a call leaves behind: a panic, or the contents [st] of the
    storage it was given to write together with the returned [error]
    ([None] is [nil]). *)
Inductive Outcome (A : Type) : Type :=
| Panicked
| Returned (st : A) (err : option error).
Arguments Panicked {A}.
Arguments Returned {A}.

(** A setter followed by the function's final [return nil]. *)
Definition assigned (r : option Val) : Outcome Val :=
  match r with
  | Some v => Returned v None
  | None => Panicked
  end.

(** Modelled from the spec: [implementsUnmarshaler] is not among the
    sources.  Section 4.3: the field's type, or its pointer wrapper's
    pointee type, implements the Custom Decoder Protocol. *)
Definition implementsUnmarshaler (t : GoType) : bool :=
  match t with
  | TPtr elem => bool_decide (is_Some (methodUnmarshal elem))
  | _ => bool_decide (is_Some (methodUnmarshal t))
  end.

(** [setFieldValue(field, value)], with [field] given by its type [t],
    its flag [fl] and the contents [cur] of its storage. *)
Fixpoint setFieldValue (t : GoType) (fl : reflect.flag) (cur : Val)
    (value : string) : Outcome Val :=
  match t with
  | TBasic reflect.Int _ =>
      let '(intVal, err) := strconv.ParseInt value 10 10 in
      match err with
      | Some err => Returned cur (Some (Join ErrInvalidIntValue (NumErr err)))
      | None => assigned (SetInt reflect.Int fl intVal)
      end
  | TBasic reflect.Int8 _ =>
      let '(intVal, err) := strconv.ParseInt value 10 8 in
      match err with
      | Some err => Returned cur (Some (Join ErrInvalidIntValue (NumErr err)))
      | None => assigned (SetInt reflect.Int8 fl intVal)
      end
  | TBasic reflect.Int16 _ =>
      let '(intVal, err) := strconv.ParseInt value 10 16 in
      match err with
      | Some err => Returned cur (Some (Join ErrInvalidIntValue (NumErr err)))
      | None => assigned (SetInt reflect.Int16 fl intVal)
      end
  | TBasic reflect.Int32 _ =>
      let '(intVal, err) := strconv.ParseInt value 10 32 in
      match err with
      | Some err => Returned cur (Some (Join ErrInvalidIntValue (NumErr err)))
      | None => assigned (SetInt reflect.Int32 fl intVal)
      end
  | TBasic reflect.Int64 _ =>
      let '(intVal, err) := strconv.ParseInt value 10 64 in
      match err with
      | Some err => Returned cur (Some (Join ErrInvalidIntValue (NumErr err)))
      | None => assigned (SetInt reflect.Int64 fl intVal)
      end
  | TBasic reflect.Uint _ =>
      let '(uintVal, err) := strconv.ParseUint value 10 10 in
      match err with
      | Some err => Returned cur (Some (Join ErrInvalidIntValue (NumErr err)))
      | None => assigned (SetUint reflect.Uint fl uintVal)
      end
  | TBasic reflect.Uint8 _ =>
      let '(uintVal, err) := strconv.ParseUint value 10 8 in
      match err with
      | Some err => Returned cur (Some (Join ErrInvalidIntValue (NumErr err)))
      | None => assigned (SetUint reflect.Uint8 fl uintVal)
      end
  | TBasic reflect.Uint16 _ =>
      let '(uintVal, err) := strconv.ParseUint value 10 16 in
      match err with
      | Some err => Returned cur (Some (Join ErrInvalidIntValue (NumErr err)))
      | None => assigned (SetUint reflect.Uint16 fl uintVal)
      end
  | TBasic reflect.Uint32 _ =>
      let '(uintVal, err) := strconv.ParseUint value 10 32 in
      match err with
      | Some err => Returned cur (Some (Join ErrInvalidIntValue (NumErr err)))
      | None => assigned (SetUint reflect.Uint32 fl uintVal)
      end
  | TBasic reflect.Uint64 _ =>
      let '(uintVal, err) := strconv.ParseUint value 10 64 in
      match err with
      | Some err => Returned cur (Some (Join ErrInvalidIntValue (NumErr err)))
      | None => assigned (SetUint reflect.Uint64 fl uintVal)
      end
  | TBasic reflect.Float32 _ =>
      let '(floatVal, err) := ParseFloat value 32 in
      match err with
      | Some err => Returned cur (Some (Join ErrInvalidFloatValue (NumErr err)))
      | None => assigned (SetFloat reflect.Float32 fl floatVal)
      end
  | TBasic reflect.Float64 _ =>
      let '(floatVal, err) := ParseFloat value 64 in
      match err with
      | Some err => Returned cur (Some (Join ErrInvalidFloatValue (NumErr err)))
      | None => assigned (SetFloat reflect.Float64 fl floatVal)
      end
  | TBasic reflect.String _ =>
      assigned (SetString fl value)
  | TBasic reflect.Bool _ =>
      let '(boolVal, err) := strconv.ParseBool value in
      match err with
      | Some err => Returned cur (Some (Join ErrInvalidBooleanValue (NumErr err)))
      | None => assigned (SetBool fl boolVal)
      end
  | TPtr elemT =>
      (* Create new value if pointer is nil *)
      match (if IsNil cur then Set_ fl (VPtr (Some (Zero elemT))) else Some cur) with
      | None => Panicked
      | Some cur1 =>
          (* Store original pointer state *)
          let wasNil := IsNil cur1 in
          (* Set the value on the dereferenced pointer *)
          match setFieldValue elemT (reflect.ElemFlag fl) (Elem cur1) value with
          | Panicked => Panicked
          | Returned elem (Some err) => Returned (VPtr (Some elem)) (Some err)
          | Returned elem None =>
              let cur2 := VPtr (Some elem) in
              if IsZero elem && reflect.CanSet fl then
                assigned (Set_ fl (VPtr None))
              else if wasNil && negb (IsZero elem) then
                assigned (Set_ fl cur2)
              else Returned cur2 None
          end
      end
  | _ =>
      if implementsUnmarshaler t then
        match methodUnmarshal t with
        | Some um =>
            (* field.Addr().Interface() *)
            if reflect.CanAddr fl && negb (reflect.flagRO fl) then
              let '(v, err) := um value cur in Returned v err
            else Panicked
        | None => Panicked
        end
      else Returned cur (Some (Errorf ErrUnsupportedKind (Kind t)))
  end.

(** The kinds [setFieldValue] has a [case] of its own for, the pointer
    kind apart. *)
Definition builtinKinds : list reflect.Kind :=
  [ reflect.Int; reflect.Int8; reflect.Int16; reflect.Int32; reflect.Int64;
    reflect.Uint; reflect.Uint8; reflect.Uint16; reflect.Uint32; reflect.Uint64;
    reflect.Float32; reflect.Float64; reflect.String; reflect.Bool ].

(** What a signed integer field parsed at [w] bits answers: the value of
    a numeral that fits, else an error that joins [ErrInvalidIntValue]
    with the range error of the numeral or the error of text that is no
    numeral, the field left as it was. *)
Definition signedFieldSpec (w : Z) (cur : Val) (value : string)
    (o : Outcome Val) : Prop :=
  match signedValue value with
  | Some z =>
      if inWidth w z then o = Returned (VInt z) None
      else o = Returned cur
                 (Some (Join ErrInvalidIntValue
                          (NumErr (strconv.rangeError "ParseInt" value))))
  | None => exists e, o = Returned cur (Some (Join ErrInvalidIntValue (NumErr e)))
  end.

(** The same for an unsigned integer field parsed at [w] bits. *)
Definition unsignedFieldSpec (w : Z) (cur : Val) (value : string)
    (o : Outcome Val) : Prop :=
  match unsignedValue value with
  | Some v =>
      if v <=? 2 ^ w - 1 then o = Returned (VUint v) None
      else o = Returned cur
                 (Some (Join ErrInvalidIntValue
                          (NumErr (strconv.rangeError "ParseUint" value))))
  | None => exists e, o = Returned cur (Some (Join ErrInvalidIntValue (NumErr e)))
  end.

(** The pointee [setFieldValue] works on for a pointer field: a fresh
    zero value when the pointer is nil, else what it points to. *)
Definition pointee (elemT : GoType) (cur : Val) : Val :=
  if IsNil cur then Zero elemT else Elem cur.

(** Induction on types that reaches the types of the fields of a struct. *)
Fixpoint GoType_fields_ind (P : GoType -> Prop)
    (Hbasic : forall k um, P (TBasic k um))
    (Hptr : forall elemT, P elemT -> P (TPtr elemT))
    (Hstruct : forall fields um,
        Forall (fun f => P (Typ f)) fields -> P (TStruct fields um))
    (t : GoType) : P t :=
  match t with
  | TBasic k um => Hbasic k um
  | TPtr elemT => Hptr elemT (GoType_fields_ind P Hbasic Hptr Hstruct elemT)
  | TStruct fields um =>
      Hstruct fields um
        ((fix all (fs : list (StructField GoType)) : Forall (fun f => P (Typ f)) fs :=
            match fs with
            | [] => List.Forall_nil _
            | f :: fs' =>
                List.Forall_cons _ f fs' (GoType_fields_ind P Hbasic Hptr Hstruct (Typ f)) (all fs')
            end) fields)
  end.

(** *** The record mapper

    [Unmarshal] is not among the sources; the schema and the mapper are
    defined after sections 3 and 4.4 of the specification. *)

(** Modelled from the spec: a Field Schema Entry of section 3 pairs a
    record field (its position, name and declared type) with its Range
    Descriptor; the entry of a field whose type is a structured
    aggregate holds the nested Record Schema. *)
Inductive Entry : Type :=
| Leaf (index : nat) (name : string) (t : GoType) (r : Range)
| Nested (index : nat) (name : string) (r : Range) (sub : list Entry).

Definition eindex (e : Entry) : nat :=
  match e with Leaf i _ _ _ | Nested i _ _ _ => i end.
Definition ename (e : Entry) : string :=
  match e with Leaf _ n _ _ | Nested _ n _ _ => n end.
Definition erange (e : Entry) : Range :=
  match e with Leaf _ _ _ r | Nested _ _ r _ => r end.

(** [a] belongs to a field declared before the field of [b]. *)
Definition declaredBefore (a b : Entry) : Prop := (eindex a < eindex b)%nat.

(** Modelled from the spec: the Field Schema Entry of one declared field
    with Range Descriptor [r]; a structured aggregate without a custom
    decoder gets the Record Schema [schemaOf] resolves for its type. *)
Definition entryOf (schemaOf : GoType -> error + list Entry) (i : nat)
    (f : StructField GoType) (r : Range) : error + Entry :=
  match Typ f with
  | TStruct _ None =>
      match schemaOf (Typ f) with
      | inl err => inl err
      | inr sub => inr (Nested i (Name f) r sub)
      end
  | ft => inr (Leaf i (Name f) ft r)
  end.

(** Modelled from the spec: the Record Schema of section 3, built by
    visiting the declared fields in source order from position [i] on; a
    field without a declaration is skipped and an invalid declaration
    fails the build. *)
Fixpoint buildEntries (schemaOf : GoType -> error + list Entry) (i : nat)
    (fs : list (StructField GoType)) : error + list Entry :=
  match fs with
  | [] => inr []
  | f :: fs' =>
      match Tag f with
      | None => buildEntries schemaOf (S i) fs'
      | Some decl =>
          match parseRange decl with
          | inl err => inl err
          | inr r =>
              match entryOf schemaOf i f r with
              | inl err => inl err
              | inr e =>
                  match buildEntries schemaOf (S i) fs' with
                  | inl err => inl err
                  | inr es => inr (e :: es)
                  end
              end
          end
      end
  end.

Fixpoint buildSchema (t : GoType) : error + list Entry :=
  match t with
  | TStruct fields _ => buildEntries buildSchema 0 fields
  | _ => inr []
  end.

(** Modelled from the spec: section 3, the Record Mapper owns the target
    record and mutates it in place; its fields are addressable and not
    read-only. *)
Definition fieldFlag : reflect.flag := reflect.mkFlag true false.

(** Modelled from the spec: the loop of section 4.4 over the Field
    Schema Entries in declared order, stopping at the first failure
    with an error that carries the field, its raw slice and the cause;
    [coerce] is the coercion of one entry.  A target without the field
    of an entry is [reflect]'s index panic. *)
Fixpoint decodeEntries (coerce : Entry -> Val -> Outcome Val)
    (line : string) (es : list Entry) (rec : list Val) : Outcome (list Val) :=
  match es with
  | [] => Returned rec None
  | e :: es' =>
      match rec !! eindex e with
      | None => Panicked
      | Some cur =>
          match coerce e cur with
          | Panicked => Panicked
          | Returned v (Some err) =>
              Returned (<[eindex e := v]> rec)
                (Some (FieldError (ename e) (sliceLine (erange e) line) err))
          | Returned v None =>
              decodeEntries coerce line es' (<[eindex e := v]> rec)
          end
      end
  end.

(** Modelled from the spec: the coercion of one entry, section 4.3.  A
    nested aggregate is decoded by the mapper itself from the same
    whole line (step 2); every other field has its slice handed to
    [setFieldValue]. *)
Fixpoint decodeEntry (line : string) (e : Entry) (cur : Val) : Outcome Val :=
  match e with
  | Leaf _ _ t r => setFieldValue t fieldFlag cur (sliceLine r line)
  | Nested _ _ _ sub =>
      match cur with
      | VStruct vs =>
          match decodeEntries (decodeEntry line) line sub vs with
          | Panicked => Panicked
          | Returned vs' err => Returned (VStruct vs') err
          end
      | _ => Panicked
      end
  end.

Definition decodeRecord (line : string) (schema : list Entry) (rec : list Val)
  : Outcome (list Val) :=
  decodeEntries (decodeEntry line) line schema rec.

(** Modelled from the spec: the entry point of section 4.4.  The schema
    of the target's type is resolved first, so an invalid declaration
    is reported before any byte of the line is looked at. *)
Definition Unmarshal (line : string) (t : GoType) (target : list Val)
  : Outcome (list Val) :=
  match buildSchema t with
  | inl err => Returned target (Some err)
  | inr schema => decodeRecord line schema target
  end.

(** *** Shapes of types and values used by the further properties *)

(** No custom decoder takes part in decoding a field of type [t]: the
    type, and what a pointer type points to, has no [Unmarshal] method. *)
Fixpoint decoderFree (t : GoType) : bool :=
  match t with
  | TBasic _ um | TStruct _ um =>
      match um with None => true | Some _ => false end
  | TPtr elem => decoderFree elem
  end.

(** The type at the end of a chain of pointers. *)
Fixpoint baseType (t : GoType) : GoType :=
  match t with
  | TPtr elem => baseType elem
  | _ => t
  end.

(** The four sentinel errors of the package. *)
Definition sentinels : list error :=
  [ErrInvalidBooleanValue; ErrInvalidIntValue; ErrInvalidFloatValue; ErrUnsupportedKind].

(** The sentinel [setFieldValue] joins or wraps for a kind. *)
Definition sentinelOf (k : reflect.Kind) : error :=
  match k with
  | reflect.Int | reflect.Int8 | reflect.Int16 | reflect.Int32 | reflect.Int64
  | reflect.Uint | reflect.Uint8 | reflect.Uint16 | reflect.Uint32
  | reflect.Uint64 => ErrInvalidIntValue
  | reflect.Float32 | reflect.Float64 => ErrInvalidFloatValue
  | reflect.Bool => ErrInvalidBooleanValue
  | _ => ErrUnsupportedKind
  end.

(** Every pointer on the way from a field of type [t] to its base value
    is non-nil in [cur]. *)
Fixpoint allocated (t : GoType) (cur : Val) : bool :=
  match t with
  | TPtr elem =>
      match cur with
      | VPtr (Some p) => allocated elem p
      | _ => false
      end
  | _ => true
  end.

(** [n] levels of pointer to [t], and a value behind [n] non-nil pointers. *)
Fixpoint ptrTo (n : nat) (t : GoType) : GoType :=
  match n with
  | O => t
  | S n => TPtr (ptrTo n t)
  end.

Fixpoint boxed (n : nat) (v : Val) : Val :=
  match n with
  | O => v
  | S n => VPtr (Some (boxed n v))
  end.

(** The signed and the unsigned integer kinds, each with the bit size its
    case of [setFieldValue] hands to [strconv]. *)
Definition signedKinds : list (reflect.Kind * Z) :=
  [ (reflect.Int, 10); (reflect.Int8, 8); (reflect.Int16, 16);
    (reflect.Int32, 32); (reflect.Int64, 64) ].

Definition unsignedKinds : list (reflect.Kind * Z) :=
  [ (reflect.Uint, 10); (reflect.Uint8, 8); (reflect.Uint16, 16);
    (reflect.Uint32, 32); (reflect.Uint64, 64) ].

(** *** Nested records *)

(** The mapper descends into a type: a struct without a custom decoder. *)
Definition descends (t : GoType) : bool :=
  match t with
  | TStruct _ None => true
  | _ => false
  end.

(** A type [setFieldValue] has a case for: no custom decoder, and at the
    end of its pointers a kind among [builtinKinds]. *)
Definition supportedType (t : GoType) : bool :=
  decoderFree t && bool_decide (Kind (baseType t) ∈ builtinKinds).

(** Every leaf of a schema entry, at any depth, is of a supported type. *)
Fixpoint leavesSupported (e : Entry) : bool :=
  match e with
  | Leaf _ _ t _ => supportedType t
  | Nested _ _ _ sub => forallb leavesSupported sub
  end.

(** Induction on schema entries that reaches the entries of a nested
    schema. *)
Fixpoint Entry_nested_ind (P : Entry -> Prop)
    (Hleaf : forall i n t r, P (Leaf i n t r))
    (Hnested : forall i n r sub, Forall P sub -> P (Nested i n r sub))
    (e : Entry) : P e :=
  match e with
  | Leaf i n t r => Hleaf i n t r
  | Nested i n r sub =>
      Hnested i n r sub
        ((fix all (es : list Entry) : Forall P es :=
            match es with
            | [] => List.Forall_nil _
            | e' :: es' =>
                List.Forall_cons _ e' es' (Entry_nested_ind P Hleaf Hnested e') (all es')
            end) sub)
  end.

End Fixedlength.

Arguments mkStructField {T}.
Arguments Name {T}.
Arguments Tag {T}.
Arguments Typ {T}.
Arguments Panicked {A}.
Arguments Returned {A}.

(** ** Examples *)

(** An instance of the float operations in which no text parses as a
    float; the example records below have no float field. *)
Definition noFloat : FloatOps :=
  {| float64 := unit;
     floatZero := tt;
     ParseFloat := fun s _ => (tt, Some (strconv.syntaxError "ParseFloat" s));
     float32of := fun x => x;
     floatIsZero := fun _ => true;
     floatZero_isZero := eq_refl |}.

Definition tString : @GoType noFloat := TBasic reflect.String None.
Definition tInt : @GoType noFloat := TBasic reflect.Int None.

(** [struct { A string `range:"0,2"`; B int `range:"2,4"`; C string `range:"4,6"` }] *)
Definition exRecord : @GoType noFloat :=
  TStruct [ mkStructField "A" (Some "0,2") tString;
            mkStructField "B" (Some "2,4") tInt;
            mkStructField "C" (Some "4,6") tString ] None.

(** The field [Body exRecord `range:"0,1"`] of an enclosing record. *)
Definition exBody : StructField (@GoType noFloat) :=
  mkStructField "Body" (Some "0,1") exRecord.

(** The field [B int `range:"5,5"`], whose declaration is degenerate. *)
Definition exBadField : StructField (@GoType noFloat) :=
  mkStructField "B" (Some "5,5") tInt.

(** The fields [Head string `range:"0,2"`] and [Body exRecord `range:"0,1"`]
    of a record that nests [exRecord]. *)
Definition exOuterFields : list (StructField (@GoType noFloat)) :=
  [ mkStructField "Head" (Some "0,2") tString; exBody ].

(** ** Properties *)

Section Properties.

Context {F : FloatOps}.

(** *** Package strconv *)

Lemma isDigit_bounds (c : ascii) :
  isDigit c = true -> 48 <= strconv.byte_val c <= 57.
Proof. unfold isDigit. intros H. apply andb_true_iff in H as [H1 H2]. lia. Qed.

Lemma digit_of_isDigit (c : ascii) :
  isDigit c = true -> strconv.digit c = Some (strconv.byte_val c - 48).
Proof. unfold isDigit, strconv.digit. intros ->. reflexivity. Qed.

Lemma digit_non_digit (c : ascii) :
  isDigit c = false ->
  match strconv.digit c with None => True | Some d => 10 <= d end.
Proof.
  unfold isDigit, strconv.digit. intros ->.
  destruct ((97 <=? strconv.lower c) && (strconv.lower c <=? 122)) eqn:H; [|exact I].
  apply andb_true_iff in H as [H1 H2]. lia.
Qed.

Lemma digitsValue_ge (s : string) :
  forall acc v, 0 <= acc -> digitsValue acc s = Some v -> acc <= v.
Proof.
  induction s as [|c s IH]; simpl; intros acc v Hacc.
  - intros [= <-]. lia.
  - destruct (isDigit c) eqn:Hc; [|discriminate].
    apply isDigit_bounds in Hc. intros H. apply IH in H; lia.
Qed.

Lemma parseDigits_spec (s0 : string) (maxVal : Z) :
  0 <= maxVal <= strconv.maxUint64 ->
  forall s acc, 0 <= acc <= maxVal ->
    match digitsValue acc s with
    | Some v =>
        strconv.parseDigits s0 10 (strconv.maxUint64 / 10 + 1) maxVal acc s
        = if v <=? maxVal then (v, None)
          else (maxVal, Some (strconv.rangeError "ParseUint" s0))
    | None =>
        strconv.parseDigits s0 10 (strconv.maxUint64 / 10 + 1) maxVal acc s
        = (0, Some (strconv.syntaxError "ParseUint" s0))
        \/ strconv.parseDigits s0 10 (strconv.maxUint64 / 10 + 1) maxVal acc s
           = (maxVal, Some (strconv.rangeError "ParseUint" s0))
    end.
Proof.
  intros Hmax. change (strconv.maxUint64 / 10 + 1) with 1844674407370955162.
  unfold strconv.maxUint64 in Hmax. change (2 ^ 64 - 1) with 18446744073709551615 in Hmax.
  induction s as [|c s IH]; intros acc Hacc; simpl.
  - destruct (acc <=? maxVal) eqn:H; [reflexivity|lia].
  - destruct (isDigit c) eqn:Hc.
    + rewrite (digit_of_isDigit _ Hc). apply isDigit_bounds in Hc.
      set (d := strconv.byte_val c - 48) in *.
      destruct (10 <=? d) eqn:Hd; [lia|].
      destruct (1844674407370955162 <=? acc) eqn:Hcut.
      { destruct (digitsValue (10 * acc + d) s) as [v|] eqn:Hv; [|right; reflexivity].
        apply digitsValue_ge in Hv; [|lia].
        destruct (v <=? maxVal) eqn:H; [lia|reflexivity]. }
      unfold strconv.uint64. change (2 ^ 64) with 18446744073709551616.
      rewrite (Z.mod_small (acc * 10)) by lia.
      destruct (Z_lt_ge_dec (acc * 10 + d) 18446744073709551616) as [Hlt|Hge].
      * rewrite (Z.mod_small (acc * 10 + d)) by lia.
        destruct (acc * 10 + d <? acc * 10) eqn:H1; [lia|].
        destruct (maxVal <? acc * 10 + d) eqn:H2; simpl.
        { destruct (digitsValue (10 * acc + d) s) as [v|] eqn:Hv; [|right; reflexivity].
          apply digitsValue_ge in Hv; [|lia].
          destruct (v <=? maxVal) eqn:H; [lia|reflexivity]. }
        replace (acc * 10 + d) with (10 * acc + d) by lia.
        apply IH. lia.
      * assert ((acc * 10 + d) mod 18446744073709551616
                = acc * 10 + d - 18446744073709551616) as ->.
        { symmetry. apply Z.mod_unique with 1; lia. }
        destruct (acc * 10 + d - 18446744073709551616 <? acc * 10) eqn:H1; [|lia].
        simpl.
        destruct (digitsValue (10 * acc + d) s) as [v|] eqn:Hv; [|right; reflexivity].
        apply digitsValue_ge in Hv; [|lia].
        destruct (v <=? maxVal) eqn:H; [lia|reflexivity].
    + pose proof (digit_non_digit _ Hc) as Hn.
      destruct (strconv.digit c) as [d|]; [|left; reflexivity].
      destruct (10 <=? d) eqn:Hd; [left; reflexivity|lia].
Qed.

Lemma pow2_bounds (b : Z) :
  1 <= b <= 64 -> 2 <= 2 ^ b <= 18446744073709551616.
Proof.
  intros Hb. split.
  - change 2 with (2 ^ 1) at 1. apply Z.pow_le_mono_r; lia.
  - change 18446744073709551616 with (2 ^ 64). apply Z.pow_le_mono_r; lia.
Qed.

Lemma maxVal_width (b : Z) :
  1 <= b <= 64 ->
  strconv.uint64 (strconv.uint64 (Z.shiftl 1 b) - 1) = 2 ^ b - 1.
Proof.
  intros Hb. rewrite Z.shiftl_1_l. pose proof (pow2_bounds b Hb) as Hp.
  unfold strconv.uint64. change (2 ^ 64) with 18446744073709551616.
  destruct (Z.eq_dec (2 ^ b) 18446744073709551616) as [->|Hne]; [reflexivity|].
  rewrite (Z.mod_small (2 ^ b)) by lia. apply Z.mod_small. lia.
Qed.

Lemma ParseUint_spec (s : string) (b : Z) :
  1 <= b <= 64 ->
  match unsignedValue s with
  | Some v =>
      strconv.ParseUint s 10 b
      = if v <=? 2 ^ b - 1 then (v, None)
        else (2 ^ b - 1, Some (strconv.rangeError "ParseUint" s))
  | None =>
      strconv.ParseUint s 10 b = (0, Some (strconv.syntaxError "ParseUint" s))
      \/ strconv.ParseUint s 10 b = (2 ^ b - 1, Some (strconv.rangeError "ParseUint" s))
  end.
Proof.
  intros Hb. unfold strconv.ParseUint, unsignedValue.
  destruct s as [|c s]; [left; reflexivity|].
  destruct (decide (String c s = "")) as [|_]; [discriminate|].
  change (negb ((2 <=? 10) && (10 <=? 36))) with false. cbn iota.
  destruct ((b <? 0) || (64 <? b)) eqn:Hbs; [lia|].
  destruct (b =? 0) eqn:Hb0; [lia|].
  rewrite (maxVal_width b Hb). pose proof (pow2_bounds b Hb) as Hp.
  apply (parseDigits_spec (String c s) (2 ^ b - 1)).
  - unfold strconv.maxUint64. change (2 ^ 64) with 18446744073709551616. lia.
  - lia.
Qed.

Lemma unsignedValue_nonneg (s : string) (v : Z) : unsignedValue s = Some v -> 0 <= v.
Proof.
  destruct s as [|c s]; [discriminate|]. unfold unsignedValue.
  apply digitsValue_ge. lia.
Qed.

Lemma int64_small (x : Z) :
  - 9223372036854775808 <= x < 9223372036854775808 -> strconv.int64 x = x.
Proof.
  intros Hx. unfold strconv.int64.
  change (2 ^ 64) with 18446744073709551616. change (2 ^ 63) with 9223372036854775808.
  destruct (Z_lt_ge_dec x 0) as [Hneg|Hpos].
  - assert (x mod 18446744073709551616 = x + 18446744073709551616) as ->.
    { symmetry. apply Z.mod_unique with (-1); lia. }
    destruct (x + 18446744073709551616 <? 9223372036854775808) eqn:H; lia.
  - rewrite Z.mod_small by lia.
    destruct (x <? 9223372036854775808) eqn:H; lia.
Qed.

Lemma int64_min : strconv.int64 9223372036854775808 = - 9223372036854775808.
Proof. reflexivity. Qed.

Lemma cutoff_width (b : Z) :
  2 <= b <= 64 ->
  strconv.uint64 (Z.shiftl 1 (b - 1)) = 2 ^ (b - 1)
  /\ 2 ^ b = 2 * 2 ^ (b - 1)
  /\ 2 <= 2 ^ (b - 1) <= 9223372036854775808.
Proof.
  intros Hb. rewrite Z.shiftl_1_l.
  assert (2 ^ b = 2 * 2 ^ (b - 1)) as H2.
  { rewrite <- Z.pow_succ_r by lia. f_equal. lia. }
  assert (2 <= 2 ^ (b - 1) <= 9223372036854775808) as H3.
  { split.
    - change 2 with (2 ^ 1) at 1. apply Z.pow_le_mono_r; lia.
    - change 9223372036854775808 with (2 ^ 63). apply Z.pow_le_mono_r; lia. }
  split; [|split; assumption].
  unfold strconv.uint64. change (2 ^ 64) with 18446744073709551616.
  apply Z.mod_small. lia.
Qed.

Lemma ParseInt_signed (neg : bool) (s0 s' : string) (b : Z) :
  2 <= b <= 64 ->
  let result :=
    let '(un, err) := strconv.ParseUint s' 10 b in
    let early :=
      match err with
      | Some e =>
          match strconv.Err e with
          | strconv.ErrRange => None
          | k => Some (strconv.mkNumError "ParseInt" s0 k)
          end
      | None => None
      end in
    match early with
    | Some e => (0, Some e)
    | None =>
        let bitSize := if b =? 0 then strconv.IntSize else b in
        let cutoff := strconv.uint64 (Z.shiftl 1 (bitSize - 1)) in
        if negb neg && (cutoff <=? un)
        then (strconv.int64 (cutoff - 1), Some (strconv.rangeError "ParseInt" s0))
        else if neg && (cutoff <? un)
        then (strconv.int64 (- strconv.int64 cutoff), Some (strconv.rangeError "ParseInt" s0))
        else
          let n := strconv.int64 un in
          ((if neg then strconv.int64 (- n) else n), None)
    end in
  match unsignedValue s' with
  | Some v =>
      let z := if neg then - v else v in
      result = if inWidth b z then (z, None)
               else ((if neg then - 2 ^ (b - 1) else 2 ^ (b - 1) - 1),
                     Some (strconv.rangeError "ParseInt" s0))
  | None => exists n e, result = (n, Some e)
  end.
Proof.
  intros Hb. cbv zeta.
  destruct (cutoff_width b Hb) as (Hcut & Hpow & HC).
  destruct (b =? 0) eqn:Hb0; [lia|]. rewrite Hcut.
  set (C := 2 ^ (b - 1)) in *.
  assert (Hover :
    (if negb neg && (C <=? 2 ^ b - 1)
     then (strconv.int64 (C - 1), Some (strconv.rangeError "ParseInt" s0))
     else if neg && (C <? 2 ^ b - 1)
     then (strconv.int64 (- strconv.int64 C), Some (strconv.rangeError "ParseInt" s0))
     else (if neg then strconv.int64 (- strconv.int64 (2 ^ b - 1))
           else strconv.int64 (2 ^ b - 1), None))
    = ((if neg then - C else C - 1), Some (strconv.rangeError "ParseInt" s0))).
  { destruct neg; simpl.
    - destruct (C <? 2 ^ b - 1) eqn:H; [|lia]. f_equal.
      destruct (Z.eq_dec C 9223372036854775808) as [->|Hne]; [reflexivity|].
      rewrite (int64_small C) by lia. apply int64_small. lia.
    - destruct (C <=? 2 ^ b - 1) eqn:H; [|lia]. f_equal. apply int64_small. lia. }
  pose proof (ParseUint_spec s' b ltac:(lia)) as Hu.
  destruct (unsignedValue s') as [v|] eqn:Hv.
  - pose proof (unsignedValue_nonneg _ _ Hv) as Hv0.
    rewrite Hu. unfold inWidth. fold C.
    destruct (v <=? 2 ^ b - 1) eqn:Hle; cbn iota beta.
    + destruct neg; simpl.
      * destruct (C <? v) eqn:H1.
        { destruct (- C <=? - v) eqn:H2; [lia|]. simpl. f_equal.
          destruct (Z.eq_dec C 9223372036854775808) as [->|Hne]; [reflexivity|].
          rewrite (int64_small C) by lia. apply int64_small. lia. }
        destruct (- C <=? - v) eqn:H2; [|lia].
        destruct (- v <? C) eqn:H3; [|lia]. simpl. f_equal.
        destruct (Z.eq_dec v 9223372036854775808) as [->|Hne]; [reflexivity|].
        rewrite (int64_small v) by lia. apply int64_small. lia.
      * destruct (C <=? v) eqn:H1.
        { destruct (v <? C) eqn:H2; [lia|]. rewrite andb_false_r. f_equal.
          apply int64_small. lia. }
        destruct (- C <=? v) eqn:H2; [|lia].
        destruct (v <? C) eqn:H3; [|lia]. simpl. f_equal. apply int64_small. lia.
    + simpl. rewrite Hover.
      destruct neg.
      * destruct (- C <=? - v) eqn:H2; [lia|]. reflexivity.
      * destruct (v <? C) eqn:H2; [lia|]. rewrite andb_false_r. reflexivity.
  - destruct Hu as [-> | ->]; simpl.
    + eauto.
    + rewrite Hover. eauto.
Qed.

Lemma ParseInt_spec (s : string) (b : Z) :
  2 <= b <= 64 ->
  match signedValue s with
  | Some z =>
      strconv.ParseInt s 10 b
      = if inWidth b z then (z, None)
        else ((if z <? 0 then - 2 ^ (b - 1) else 2 ^ (b - 1) - 1),
              Some (strconv.rangeError "ParseInt" s))
  | None => exists n e, strconv.ParseInt s 10 b = (n, Some e)
  end.
Proof.
  intros Hb. destruct s as [|c s]; [simpl; eauto|].
  unfold strconv.ParseInt, signedValue.
  destruct (cutoff_width b Hb) as (_ & _ & HC).
  destruct (Ascii.eqb c "+") eqn:Hplus; [|destruct (Ascii.eqb c "-") eqn:Hminus].
  - pose proof (ParseInt_signed false (String c s) s b Hb) as H. cbv zeta in H.
    destruct (unsignedValue s) as [v|] eqn:Hv; [|exact H].
    pose proof (unsignedValue_nonneg _ _ Hv) as Hv0.
    rewrite H. destruct (v <? 0) eqn:Hneg; [lia|]. reflexivity.
  - pose proof (ParseInt_signed true (String c s) s b Hb) as H. cbv zeta in H.
    destruct (unsignedValue s) as [v|] eqn:Hv; [|exact H].
    pose proof (unsignedValue_nonneg _ _ Hv) as Hv0.
    simpl option_map. cbv iota beta. rewrite H.
    destruct (inWidth b (- v)) eqn:Hin; [reflexivity|].
    destruct (- v <? 0) eqn:Hneg; [reflexivity|].
    unfold inWidth in Hin. assert (v = 0) as -> by lia.
    change (- 0) with 0 in Hin.
    exfalso. apply andb_false_iff in Hin as [Hin|Hin]; lia.
  - pose proof (ParseInt_signed false (String c s) (String c s) b Hb) as H.
    cbv zeta in H. change (unsignedValue (String c s)) with (digitsValue 0 (String c s)) in H.
    destruct (digitsValue 0 (String c s)) as [v|] eqn:Hv; [|exact H].
    pose proof (digitsValue_ge _ 0 _ (Z.le_refl 0) Hv) as Hv0.
    rewrite H. destruct (v <? 0) eqn:Hneg; [lia|]. reflexivity.
Qed.

(** *** The type coercer *)

Lemma CanSet_ElemFlag (fl : reflect.flag) :
  reflect.CanSet fl = true -> reflect.CanSet (reflect.ElemFlag fl) = true.
Proof. destruct fl as [a r]; unfold reflect.CanSet; simpl. intros H.
  apply andb_true_iff in H as [_ H]. exact H. Qed.

(** The zero value of a type is zero for [IsZero]. *)
Lemma IsZero_Zero (t : GoType) : IsZero (Zero t) = true.
Proof.
  induction t as [k um|elemT _|fields um IH] using GoType_fields_ind.
  - destruct k; simpl; try reflexivity; apply floatZero_isZero.
  - reflexivity.
  - simpl. induction IH as [|f fs Hf _ IHfs]; simpl; [reflexivity|].
    rewrite Hf. exact IHfs.
Qed.

(** A settable field never makes [setFieldValue] panic. *)
Lemma setFieldValue_no_panic (t : GoType) :
  forall fl cur value, reflect.CanSet fl = true ->
    setFieldValue t fl cur value <> Panicked.
Proof.
  induction t as [k um|elemT IH|fields um]; intros fl cur value Hset.
  - destruct k; simpl;
      unfold SetInt, SetUint, SetFloat, SetString, SetBool;
      rewrite ?Hset;
      repeat match goal with
             | |- context [let '(_, _) := ?p in _] => destruct p as [? [?|]]
             end; simpl; try discriminate;
      unfold implementsUnmarshaler; simpl; destruct um as [um|]; simpl;
      try discriminate;
      unfold reflect.CanSet, reflect.CanAddr in *; rewrite Hset;
      destruct (um value cur); discriminate.
  - simpl. unfold Set_. rewrite Hset.
    destruct (IsNil cur).
    + specialize (IH (reflect.ElemFlag fl) (Elem (VPtr (Some (Zero elemT)))) value
                    (CanSet_ElemFlag _ Hset)).
      destruct (setFieldValue elemT _ _ value) as [|v [err|]]; try congruence.
      simpl. destruct (IsZero v); simpl; discriminate.
    + specialize (IH (reflect.ElemFlag fl) (Elem cur) value (CanSet_ElemFlag _ Hset)).
      destruct (setFieldValue elemT _ _ value) as [|v [err|]]; try congruence.
      simpl. destruct (IsZero v); simpl; try discriminate.
      destruct (IsNil cur); simpl; discriminate.
  - simpl. unfold implementsUnmarshaler; simpl. destruct um as [um|]; simpl.
    + unfold reflect.CanSet, reflect.CanAddr in *. rewrite Hset.
      destruct (um value cur); discriminate.
    + discriminate.
Qed.

(** C5. A string-typed field receives the slice verbatim, without any
    trimming, and the coercion returns no error. *)
Theorem string_field_verbatim (um : option Unmarshaler) (fl : reflect.flag)
    (cur : Val) (value : string) :
  reflect.CanSet fl = true ->
  setFieldValue (TBasic reflect.String um) fl cur value
  = Returned (VString value) None.
Proof. intros Hset. simpl. unfold SetString. rewrite Hset. reflexivity. Qed.

(** C6. A bool-typed field is set to [true] for a slice among the true
    tokens of [strconv.ParseBool] and to [false] for one among the false
    tokens; for every other slice the field is left as it was and the
    returned error wraps [ErrInvalidBooleanValue]. *)
Theorem bool_field_tokens (um : option Unmarshaler) (fl : reflect.flag)
    (cur : Val) (value : string) :
  reflect.CanSet fl = true ->
  (value ∈ strconv.trueTokens ->
     setFieldValue (TBasic reflect.Bool um) fl cur value = Returned (VBool true) None)
  /\ (value ∈ strconv.falseTokens ->
     setFieldValue (TBasic reflect.Bool um) fl cur value = Returned (VBool false) None)
  /\ (value ∉ strconv.trueTokens -> value ∉ strconv.falseTokens ->
     exists err,
       setFieldValue (TBasic reflect.Bool um) fl cur value = Returned cur (Some err)
       /\ Is err ErrInvalidBooleanValue = true).
Proof.
  intros Hset. simpl. unfold strconv.ParseBool, SetBool. rewrite Hset.
  repeat split.
  - intros Hin. destruct (decide (value ∈ strconv.trueTokens)); [reflexivity|contradiction].
  - intros Hin. destruct (decide (value ∈ strconv.trueTokens)) as [Ht|_].
    + exfalso. revert Ht Hin. unfold strconv.trueTokens, strconv.falseTokens.
      rewrite !elem_of_cons, !elem_of_nil. intuition congruence.
    + destruct (decide (value ∈ strconv.falseTokens)); [reflexivity|contradiction].
  - intros Ht Hf.
    destruct (decide (value ∈ strconv.trueTokens)); [contradiction|].
    destruct (decide (value ∈ strconv.falseTokens)); [contradiction|].
    eexists; split; [reflexivity|reflexivity].
Qed.

Lemma setFieldValue_ptr_ok (elemT : GoType) (fl : reflect.flag) (cur : Val)
    (value : string) (v : Val) :
  reflect.CanSet fl = true ->
  setFieldValue elemT (reflect.ElemFlag fl) (pointee elemT cur) value = Returned v None ->
  setFieldValue (TPtr elemT) fl cur value
  = Returned (if IsZero v then VPtr None else VPtr (Some v)) None.
Proof.
  intros Hset Hin. simpl. unfold Set_, pointee in *. rewrite Hset.
  destruct (IsNil cur) eqn:Hnil; simpl in *; rewrite Hin;
    destruct (IsZero v); simpl; try reflexivity.
  rewrite Hnil. reflexivity.
Qed.

(** A call on an addressable field that returns without error has
    written to it: the field is settable. *)
Lemma setFieldValue_ok_settable (t : GoType) :
  forall fl cur value r, reflect.CanAddr fl = true ->
    setFieldValue t fl cur value = Returned r None -> reflect.CanSet fl = true.
Proof.
  induction t as [k um|elemT IH|fields um]; intros fl cur value r Haddr.
  - destruct (reflect.CanSet fl) eqn:Hset; [reflexivity|].
    destruct k; simpl;
      unfold SetInt, SetUint, SetFloat, SetString, SetBool;
      rewrite ?Hset;
      repeat match goal with
             | |- context [let '(_, _) := ?p in _] => destruct p as [? [?|]]
             end; simpl; try discriminate;
      unfold implementsUnmarshaler; simpl; destruct um as [um|]; simpl;
      try discriminate;
      unfold reflect.CanSet, reflect.CanAddr in *; rewrite Hset; discriminate.
  - simpl. unfold Set_. destruct (reflect.CanSet fl) eqn:Hset; [reflexivity|].
    destruct (IsNil cur); [discriminate|].
    destruct (setFieldValue elemT (reflect.ElemFlag fl) (Elem cur) value)
      as [|v [err|]] eqn:Hin; try discriminate.
    apply IH in Hin; [|reflexivity].
    unfold reflect.CanSet, reflect.CanAddr in *. simpl in Hin.
    rewrite Haddr, Hin in Hset. discriminate.
  - simpl. unfold implementsUnmarshaler; simpl. destruct um as [um|]; simpl.
    + unfold reflect.CanSet, reflect.CanAddr in *.
      destruct (reflect.flagAddr fl && negb (reflect.flagRO fl)); [reflexivity|discriminate].
    + discriminate.
Qed.

(** C3. For a pointer-typed field, the slice is coerced into the
    pointed-to type; after a call that returned no error the pointer is
    nil exactly when the coerced value is the zero value of the pointee
    type, and a non-zero coerced value is what the pointer holds. *)
Theorem pointer_field_nil_iff_zero (elemT : GoType) (fl : reflect.flag)
    (cur : Val) (value : string) (r : Val) :
  reflect.CanAddr fl = true ->
  setFieldValue (TPtr elemT) fl cur value = Returned r None ->
  exists v,
    setFieldValue elemT (reflect.ElemFlag fl) (pointee elemT cur) value
    = Returned v None
    /\ (IsNil r = true <-> IsZero v = true)
    /\ (IsZero v = false -> r = VPtr (Some v)).
Proof.
  intros Haddr Hcall.
  pose proof (setFieldValue_ok_settable _ _ _ _ _ Haddr Hcall) as Hset.
  pose proof (setFieldValue_no_panic elemT (reflect.ElemFlag fl)
                (pointee elemT cur) value (CanSet_ElemFlag _ Hset)) as Hnp.
  destruct (setFieldValue elemT (reflect.ElemFlag fl) (pointee elemT cur) value)
    as [|v [err|]] eqn:Hin; [congruence| |].
  - exfalso. revert Hcall. simpl. unfold Set_, pointee in *. rewrite Hset.
    destruct (IsNil cur); simpl in *; rewrite Hin; discriminate.
  - exists v. split; [reflexivity|].
    rewrite (setFieldValue_ptr_ok _ _ _ _ _ Hset Hin) in Hcall.
    injection Hcall as <-.
    destruct (IsZero v); simpl; split; try split; congruence.
Qed.

(** C10. For a pointer-typed field that is nil on entry, a fresh zero
    pointee is stored in the field before the slice is coerced into it;
    when that coercion fails its error is returned and the field keeps
    the freshly allocated, non-nil pointer: nil is not restored. *)
Theorem nil_pointer_left_allocated_on_error (elemT : GoType)
    (fl : reflect.flag) (value : string) (r : Val) (err : error) :
  reflect.CanSet fl = true ->
  setFieldValue (TPtr elemT) fl (VPtr None) value = Returned r (Some err) <->
  exists v,
    setFieldValue elemT (reflect.ElemFlag fl) (Zero elemT) value
    = Returned v (Some err)
    /\ r = VPtr (Some v).
Proof.
  intros Hset. simpl. unfold Set_. rewrite Hset. simpl.
  destruct (setFieldValue elemT (reflect.ElemFlag fl) (Zero elemT) value)
    as [|v [e|]] eqn:Hin.
  - split; [discriminate|]. intros (v & Hv & _). discriminate.
  - split.
    + intros H. injection H as <- <-. exists v. split; reflexivity.
    + intros (v' & Hv & ->). injection Hv as <- <-. reflexivity.
  - split.
    + destruct (IsZero v); simpl; discriminate.
    + intros (v' & Hv & _). discriminate.
Qed.

Lemma truncS_small (w x : Z) :
  1 <= w -> - 2 ^ (w - 1) <= x < 2 ^ (w - 1) -> reflect.truncS w x = x.
Proof.
  intros Hw Hx. unfold reflect.truncS.
  assert (2 ^ w = 2 * 2 ^ (w - 1)) as ->.
  { rewrite <- Z.pow_succ_r by lia. f_equal. lia. }
  set (C := 2 ^ (w - 1)) in *.
  destruct (Z_lt_ge_dec x 0) as [Hneg|Hpos].
  - assert (x mod (2 * C) = x + 2 * C) as ->.
    { symmetry. apply Z.mod_unique with (-1); lia. }
    destruct (x + 2 * C <? C) eqn:H; lia.
  - rewrite Z.mod_small by lia. destruct (x <? C) eqn:H; lia.
Qed.

Lemma inWidth_le (w w' z : Z) :
  1 <= w <= w' -> inWidth w z = true -> - 2 ^ (w' - 1) <= z < 2 ^ (w' - 1).
Proof.
  intros Hw Hin. unfold inWidth in Hin. apply andb_true_iff in Hin as [H1 H2].
  assert (2 ^ (w - 1) <= 2 ^ (w' - 1)) by (apply Z.pow_le_mono_r; lia). lia.
Qed.

Lemma signed_field_spec (k : reflect.Kind) (w : Z) (um : option Unmarshaler)
    (cur : Val) (value : string) :
  2 <= w <= reflect.bits k ->
  (let '(intVal, err) := strconv.ParseInt value 10 w in
   match err with
   | Some err => Returned cur (Some (Join ErrInvalidIntValue (NumErr err)))
   | None => assigned (SetInt k fieldFlag intVal)
   end) = setFieldValue (TBasic k um) fieldFlag cur value ->
  k ∈ [reflect.Int; reflect.Int8; reflect.Int16; reflect.Int32; reflect.Int64] ->
  signedFieldSpec w cur value (setFieldValue (TBasic k um) fieldFlag cur value).
Proof.
  intros Hw <- Hk. unfold signedFieldSpec.
  assert (reflect.bits k <= 64) as Hbits.
  { repeat (apply elem_of_cons in Hk as [->|Hk]; [vm_compute; discriminate|]).
    inversion Hk. }
  pose proof (ParseInt_spec value w ltac:(lia)) as Hspec.
  destruct (signedValue value) as [z|].
  - rewrite Hspec. destruct (inWidth w z) eqn:Hin; [|reflexivity].
    pose proof (inWidth_le w (reflect.bits k) z ltac:(lia) Hin) as Hz.
    unfold SetInt. change (reflect.CanSet fieldFlag) with true. cbn iota.
    rewrite (truncS_small (reflect.bits k) z ltac:(lia) Hz).
    repeat (apply elem_of_cons in Hk as [->|Hk]; [reflexivity|]). inversion Hk.
  - destruct Hspec as (n & e & ->). eauto.
Qed.

Lemma unsigned_field_spec (k : reflect.Kind) (w : Z) (um : option Unmarshaler)
    (cur : Val) (value : string) :
  1 <= w <= reflect.bits k ->
  (let '(uintVal, err) := strconv.ParseUint value 10 w in
   match err with
   | Some err => Returned cur (Some (Join ErrInvalidIntValue (NumErr err)))
   | None => assigned (SetUint k fieldFlag uintVal)
   end) = setFieldValue (TBasic k um) fieldFlag cur value ->
  k ∈ [reflect.Uint; reflect.Uint8; reflect.Uint16; reflect.Uint32; reflect.Uint64] ->
  unsignedFieldSpec w cur value (setFieldValue (TBasic k um) fieldFlag cur value).
Proof.
  intros Hw <- Hk. unfold unsignedFieldSpec.
  assert (reflect.bits k <= 64) as Hbits.
  { repeat (apply elem_of_cons in Hk as [->|Hk]; [vm_compute; discriminate|]).
    inversion Hk. }
  pose proof (ParseUint_spec value w ltac:(lia)) as Hspec.
  destruct (unsignedValue value) as [v|] eqn:Hv.
  - pose proof (unsignedValue_nonneg _ _ Hv) as Hv0.
    rewrite Hspec. destruct (v <=? 2 ^ w - 1) eqn:Hin; [|reflexivity].
    assert (2 ^ w <= 2 ^ reflect.bits k) by (apply Z.pow_le_mono_r; lia).
    unfold SetUint. change (reflect.CanSet fieldFlag) with true. cbn iota.
    unfold reflect.truncU. rewrite Z.mod_small by lia.
    repeat (apply elem_of_cons in Hk as [->|Hk]; [reflexivity|]). inversion Hk.
  - destruct Hspec as [-> | ->]; eauto.
Qed.

(** C1. An integer field is parsed in base 10 and fails with
    [ErrInvalidIntValue] exactly for text that is no numeral or that
    overflows the bit size handed to [strconv]: the own width for the
    sized kinds, but 10 bits for [int] and [uint].  So the text 512 is
    rejected for an [int] field and 1024 for a [uint] field. *)
Theorem int_field_parsed_at_10_bits (um : option Unmarshaler) (cur : Val)
    (value : string) :
  (signedFieldSpec 10 cur value (setFieldValue (TBasic reflect.Int um) fieldFlag cur value)
   /\ signedFieldSpec 8 cur value (setFieldValue (TBasic reflect.Int8 um) fieldFlag cur value)
   /\ signedFieldSpec 16 cur value (setFieldValue (TBasic reflect.Int16 um) fieldFlag cur value)
   /\ signedFieldSpec 32 cur value (setFieldValue (TBasic reflect.Int32 um) fieldFlag cur value)
   /\ signedFieldSpec 64 cur value (setFieldValue (TBasic reflect.Int64 um) fieldFlag cur value))
  /\ (unsignedFieldSpec 10 cur value (setFieldValue (TBasic reflect.Uint um) fieldFlag cur value)
      /\ unsignedFieldSpec 8 cur value (setFieldValue (TBasic reflect.Uint8 um) fieldFlag cur value)
      /\ unsignedFieldSpec 16 cur value (setFieldValue (TBasic reflect.Uint16 um) fieldFlag cur value)
      /\ unsignedFieldSpec 32 cur value (setFieldValue (TBasic reflect.Uint32 um) fieldFlag cur value)
      /\ unsignedFieldSpec 64 cur value (setFieldValue (TBasic reflect.Uint64 um) fieldFlag cur value))
  /\ setFieldValue (TBasic reflect.Int um) fieldFlag cur "512"
     = Returned cur
         (Some (Join ErrInvalidIntValue (NumErr (strconv.rangeError "ParseInt" "512"))))
  /\ setFieldValue (TBasic reflect.Uint um) fieldFlag cur "1024"
     = Returned cur
         (Some (Join ErrInvalidIntValue (NumErr (strconv.rangeError "ParseUint" "1024"))))
  /\ setFieldValue (TBasic reflect.Int64 um) fieldFlag cur "512" = Returned (VInt 512) None
  /\ setFieldValue (TBasic reflect.Uint64 um) fieldFlag cur "1024"
     = Returned (VUint 1024) None.
Proof.
  split; [|split; [|repeat split; vm_compute; reflexivity]].
  - repeat split;
      (apply signed_field_spec;
       [vm_compute; split; discriminate | reflexivity
       | apply (bool_decide_unpack _); vm_compute; exact I]).
  - repeat split;
      (apply unsigned_field_spec;
       [vm_compute; split; discriminate | reflexivity
       | apply (bool_decide_unpack _); vm_compute; exact I]).
Qed.

(** C2. For a type of a kind with a built-in case the custom decoder is
    never consulted: the outcome is the same whatever decoder the type
    has, so a string field receives the slice and a bool field rejects a
    token outside those of [strconv.ParseBool]; the decoder runs for the
    kinds that reach the [default] branch, such as a struct. *)
Theorem custom_decoder_skipped_for_builtin_kinds (um : Unmarshaler)
    (cur : Val) (value : string) :
  Forall (fun k => setFieldValue (TBasic k (Some um)) fieldFlag cur value
                   = setFieldValue (TBasic k None) fieldFlag cur value) builtinKinds
  /\ setFieldValue (TBasic reflect.String (Some um)) fieldFlag cur value
     = Returned (VString value) None
  /\ setFieldValue (TBasic reflect.Bool (Some um)) fieldFlag cur "Y"
     = Returned cur
         (Some (Join ErrInvalidBooleanValue (NumErr (strconv.syntaxError "ParseBool" "Y"))))
  /\ (forall fields,
       setFieldValue (TStruct fields (Some um)) fieldFlag cur value
       = let '(v, err) := um value cur in Returned v err)
  /\ (forall fields,
       setFieldValue (TPtr (TStruct fields (Some um))) fieldFlag (VPtr (Some cur)) value
       = match um value cur with
         | (v, Some err) => Returned (VPtr (Some v)) (Some err)
         | (v, None) => Returned (if IsZero v then VPtr None else VPtr (Some v)) None
         end).
Proof.
  split; [|split; [|split; [|split]]].
  - unfold builtinKinds. repeat constructor.
  - reflexivity.
  - reflexivity.
  - intros fields. reflexivity.
  - intros fields. simpl. destruct (um value cur) as [v [err|]]; [reflexivity|].
    destruct (IsZero v); reflexivity.
Qed.

(** *** Range declarations *)

Lemma decimalValue_pos (d : Decimal.uint) :
  forall acc, decimalValue (Z.pos acc) d = Z.pos (Pos.of_uint_acc d acc).
Proof.
  induction d; intros acc; simpl; try reflexivity;
    rewrite <- IHd; f_equal; lia.
Qed.

Lemma decimalValue_0 (d : Decimal.uint) :
  decimalValue 0 d = Z.of_N (Pos.of_uint d).
Proof.
  induction d; simpl; try reflexivity; try exact IHd;
    apply (decimalValue_pos d).
Qed.

Lemma decimalValue_to_uint (p : positive) :
  decimalValue 0 (Pos.to_uint p) = Z.pos p.
Proof. rewrite decimalValue_0, DecimalPos.Unsigned.of_to. reflexivity. Qed.

Lemma digitsValue_string_of_uint (d : Decimal.uint) :
  forall acc,
    digitsValue acc (NilEmpty.string_of_uint d) = Some (decimalValue acc d).
Proof.
  induction d; intros acc;
    cbn [NilEmpty.string_of_uint digitsValue decimalValue]; try reflexivity;
    match goal with
    | |- context [isDigit ?c] =>
        change (isDigit c) with true;
        let n := eval vm_compute in (strconv.byte_val c) in
        change (strconv.byte_val c) with n
    end;
    cbn iota; rewrite IHd; do 2 f_equal; lia.
Qed.

Lemma string_of_uint_head (d : Decimal.uint) :
  d <> Decimal.Nil ->
  exists c rest, NilEmpty.string_of_uint d = String c rest /\ Ascii.eqb c "-" = false.
Proof. destruct d; intros Hd; try congruence; simpl; eauto. Qed.

Lemma string_of_uint_nonnil (d : Decimal.uint) :
  d <> Decimal.Nil -> NilZero.string_of_uint d = NilEmpty.string_of_uint d.
Proof. destruct d; intros Hd; try congruence; reflexivity. Qed.

(** Parsing the decimal text of an integer gives the integer back. *)
Lemma parseInteger_Itoa (z : Z) : parseInteger (Itoa z) = Some z.
Proof.
  destruct z as [|p|p]; [reflexivity| |];
    unfold Itoa, Z.to_int, NilZero.string_of_int;
    pose proof (DecimalPos.Unsigned.to_uint_nonnil p) as Hnil;
    pose proof (digitsValue_string_of_uint (Pos.to_uint p) 0) as Hv;
    rewrite decimalValue_to_uint in Hv;
    rewrite (string_of_uint_nonnil _ Hnil);
    destruct (string_of_uint_head _ Hnil) as (c & rest & Hs & Hc);
    rewrite Hs in *; unfold parseInteger.
  - rewrite Hc. exact Hv.
  - change (Ascii.eqb "-" "-") with true. cbn iota. rewrite Hv. reflexivity.
Qed.

Lemma isDigit_not_comma (c : ascii) : isDigit c = true -> Ascii.eqb c "," = false.
Proof.
  destruct (Ascii.eqb c ",") eqn:Hc; [|reflexivity].
  apply Ascii.eqb_eq in Hc as ->. vm_compute. congruence.
Qed.

Lemma digitsValue_allDigits (s : string) :
  forall acc, digitsValue acc s = None <-> allDigits s = false.
Proof.
  induction s as [|c s IH]; intros acc; simpl.
  - split; discriminate.
  - destruct (isDigit c); simpl; [apply IH|]. split; reflexivity.
Qed.

Lemma parseInteger_isNumeral (s : string) :
  parseInteger s = None <-> isNumeral s = false.
Proof.
  destruct s as [|c s]; [split; reflexivity|].
  unfold parseInteger, isNumeral.
  destruct (Ascii.eqb c "-").
  - destruct s as [|c' s']; [split; reflexivity|].
    rewrite bool_decide_eq_false_2 by discriminate. simpl negb. rewrite andb_true_l.
    rewrite <- (digitsValue_allDigits _ 0).
    destruct (digitsValue 0 (String c' s')); simpl; split; congruence.
  - apply digitsValue_allDigits.
Qed.

Lemma cut_digits (a b : string) :
  allDigits a = true -> cut "," (a ++ String "," b) = Some (a, b).
Proof.
  induction a as [|c a IH]; simpl; [reflexivity|].
  intros H. apply andb_true_iff in H as [Hc Ha].
  rewrite (isDigit_not_comma _ Hc), (IH Ha). reflexivity.
Qed.

Lemma cut_numeral (a b : string) :
  isNumeral a = true -> cut "," (a ++ String "," b) = Some (a, b).
Proof.
  destruct a as [|c a]; [discriminate|]. unfold isNumeral.
  destruct (Ascii.eqb c "-") eqn:Hc.
  - apply Ascii.eqb_eq in Hc as ->. intros H. apply andb_true_iff in H as [_ Ha].
    simpl. rewrite (cut_digits _ _ Ha). reflexivity.
  - apply cut_digits.
Qed.

(** Text that holds a comma is no numeral. *)
Lemma allDigits_comma (a b : string) : allDigits (a ++ String "," b) = false.
Proof.
  induction a as [|c a IH]; simpl; [reflexivity|].
  rewrite IH. apply andb_false_r.
Qed.

Lemma isNumeral_comma (a b : string) : isNumeral (a ++ String "," b) = false.
Proof.
  destruct a as [|c a]; [reflexivity|]. simpl. unfold isNumeral.
  destruct (Ascii.eqb c "-").
  - rewrite allDigits_comma. apply andb_false_r.
  - apply (allDigits_comma (String c a)).
Qed.

Lemma cut_app (a b : string) :
  cut "," (a ++ String "," b)
  = match cut "," a with
    | Some (a1, a2) => Some (a1, a2 ++ String "," b)
    | None => Some (a, b)
    end.
Proof.
  induction a as [|c a IH]; simpl; [reflexivity|].
  destruct (Ascii.eqb c ","); [reflexivity|].
  rewrite IH. destruct (cut "," a) as [[a1 a2]|]; reflexivity.
Qed.

Lemma isNumeral_true (s : string) :
  isNumeral s = true -> exists z, parseInteger s = Some z.
Proof.
  intros H. destruct (parseInteger s) as [z|] eqn:Hp; [eauto|].
  apply parseInteger_isNumeral in Hp. congruence.
Qed.

Lemma parseInteger_numeral (s : string) (z : Z) :
  parseInteger s = Some z -> isNumeral s = true.
Proof.
  intros H. destruct (isNumeral s) eqn:Hn; [reflexivity|].
  apply parseInteger_isNumeral in Hn. congruence.
Qed.

(** What the parser answers for two numerals either side of a comma. *)
Lemma parseRange_numerals (a b : string) (s e : Z) :
  parseInteger a = Some s -> parseInteger b = Some e ->
  parseRange (a ++ String "," b)
  = if s <? 0 then inl (ErrInvalidRange "negative start")
    else if e =? -1 then inr (mkRange s RestOfLine)
    else if e <? -1 then inl (ErrInvalidRange "end below -1")
    else if s =? e then inl (ErrInvalidRange "start equals end")
    else if e <? s then inl (ErrInvalidRange "start after end")
    else inr (mkRange s (EndAt e)).
Proof.
  intros Ha Hb. unfold parseRange.
  rewrite (cut_numeral _ _ (parseInteger_numeral _ _ Ha)), Ha, Hb.
  destruct a; [discriminate|]. reflexivity.
Qed.

(** C7. For integers [0 <= s < e] the declaration ["<s>,<e>"] parses to
    the descriptor with start [s] and end [e], and the declaration
    ["<s>,-1"] parses to the descriptor with start [s] and the
    rest-of-line sentinel as its end. *)
Theorem valid_declarations_parsed (s e : Z) :
  0 <= s ->
  (s < e -> parseRange (Itoa s ++ "," ++ Itoa e) = inr (mkRange s (EndAt e)))
  /\ parseRange (Itoa s ++ "," ++ Itoa (-1)) = inr (mkRange s RestOfLine).
Proof.
  intros Hs. split; [intros He|];
    change ("," ++ ?x) with (String "," x);
    rewrite (parseRange_numerals _ _ _ _ (parseInteger_Itoa _) (parseInteger_Itoa _)).
  - destruct (s <? 0) eqn:H1; [lia|].
    destruct (e =? -1) eqn:H2; [lia|].
    destruct (e <? -1) eqn:H3; [lia|].
    destruct (s =? e) eqn:H4; [lia|].
    destruct (e <? s) eqn:H5; [lia|]. reflexivity.
  - destruct (s <? 0) eqn:H1; [lia|]. reflexivity.
Qed.

(** A declaration with a component that is no numeral is rejected. *)
Lemma parseRange_non_numeric (a b : string) :
  isNumeral a = false \/ isNumeral b = false ->
  parseRange (a ++ String "," b) = inl (ErrInvalidRange "non-numeric component").
Proof.
  intros H. unfold parseRange.
  destruct (decide (a ++ String "," b = "")) as [He|_].
  { destruct a; discriminate. }
  rewrite cut_app. destruct (cut "," a) as [[a1 a2]|] eqn:Hcut.
  - pose proof (isNumeral_comma a2 b) as Hn.
    apply parseInteger_isNumeral in Hn. rewrite Hn.
    destruct (parseInteger a1); reflexivity.
  - destruct H as [H|H]; apply parseInteger_isNumeral in H; rewrite H;
      [reflexivity|destruct (parseInteger a); reflexivity].
Qed.

(** *** The record mapper *)

Lemma parseRange_error (decl : string) (err : error) :
  parseRange decl = inl err -> exists msg, err = ErrInvalidRange msg.
Proof.
  unfold parseRange. intros H.
  repeat match type of H with
         | (if ?c then _ else _) = _ => destruct c
         | match ?x with _ => _ end = _ => destruct x
         end; inversion H; eauto.
Qed.

Lemma entryOf_error (schemaOf : GoType -> error + list Entry) (i : nat)
    (f : StructField GoType) (r : Range) (err : error) :
  entryOf schemaOf i f r = inl err -> schemaOf (Typ f) = inl err.
Proof.
  unfold entryOf. destruct (Typ f) as [k um|elemT|fields [um|]]; try discriminate.
  destruct (schemaOf _); [congruence|discriminate].
Qed.

Lemma buildEntries_error (schemaOf : GoType -> error + list Entry)
    (fs : list (StructField GoType)) :
  Forall (fun f => forall err, schemaOf (Typ f) = inl err ->
                   exists msg, err = ErrInvalidRange msg) fs ->
  forall i err, buildEntries schemaOf i fs = inl err ->
    exists msg, err = ErrInvalidRange msg.
Proof.
  induction 1 as [|f fs Hf _ IH]; intros i err; simpl; [discriminate|].
  destruct (Tag f) as [decl|]; [|apply IH].
  destruct (parseRange decl) as [e0|r] eqn:Hr.
  - intros [= <-]. eapply parseRange_error, Hr.
  - destruct (entryOf schemaOf i f r) as [e1|e] eqn:He.
    + intros [= <-]. eapply Hf, entryOf_error, He.
    + destruct (buildEntries schemaOf (S i) fs) eqn:Hb; [|discriminate].
      intros [= <-]. eapply IH, Hb.
Qed.

(** A schema build fails with the invalid-range kind only. *)
Lemma buildSchema_error (t : GoType) :
  forall err, buildSchema t = inl err -> exists msg, err = ErrInvalidRange msg.
Proof.
  induction t as [k um|elemT _|fields um IH] using GoType_fields_ind;
    simpl; try discriminate.
  intros err. apply buildEntries_error. exact IH.
Qed.

Lemma buildEntries_bad_tag (schemaOf : GoType -> error + list Entry)
    (fs : list (StructField GoType)) (f : StructField GoType) (decl : string)
    (e0 : error) :
  (forall t err, schemaOf t = inl err -> exists msg, err = ErrInvalidRange msg) ->
  f ∈ fs -> Tag f = Some decl -> parseRange decl = inl e0 ->
  forall i, exists msg, buildEntries schemaOf i fs = inl (ErrInvalidRange msg).
Proof.
  intros Hsch Hin Htag Hbad.
  induction fs as [|g fs IH]; [inversion Hin|]. intros i. simpl.
  apply elem_of_cons in Hin as [<-|Hin].
  { rewrite Htag, Hbad. destruct (parseRange_error _ _ Hbad) as [msg ->]. eauto. }
  destruct (Tag g) as [d|]; [|apply IH, Hin].
  destruct (parseRange d) as [e1|r] eqn:Hr.
  - destruct (parseRange_error _ _ Hr) as [msg ->]. eauto.
  - destruct (entryOf schemaOf i g r) as [e1|e] eqn:He.
    + apply entryOf_error, Hsch in He as [msg ->]. eauto.
    + destruct (IH Hin (S i)) as [msg ->]. eauto.
Qed.

Lemma entryOf_index (schemaOf : GoType -> error + list Entry) (i : nat)
    (f : StructField GoType) (r : Range) (e : Entry) :
  entryOf schemaOf i f r = inr e -> eindex e = i.
Proof.
  unfold entryOf. destruct (Typ f) as [k um|elemT|fields [um|]];
    try (intros [= <-]; reflexivity).
  destruct (schemaOf _); [discriminate|]. intros [= <-]. reflexivity.
Qed.

Lemma buildEntries_sorted (schemaOf : GoType -> error + list Entry)
    (fs : list (StructField GoType)) :
  forall i es, buildEntries schemaOf i fs = inr es ->
    Forall (fun e => (i <= eindex e)%nat) es /\ StronglySorted declaredBefore es.
Proof.
  induction fs as [|f fs IH]; intros i es; simpl.
  - intros [= <-]. split; constructor.
  - destruct (Tag f) as [decl|].
    + destruct (parseRange decl) as [|r]; [discriminate|].
      destruct (entryOf schemaOf i f r) as [|e] eqn:He; [discriminate|].
      destruct (buildEntries schemaOf (S i) fs) as [|es'] eqn:Hb; [discriminate|].
      intros [= <-]. apply entryOf_index in He.
      destruct (IH _ _ Hb) as [Hge Hs]. split.
      * constructor; [lia|]. eapply Forall_impl; [exact Hge|]. simpl. intros; lia.
      * constructor; [exact Hs|]. eapply Forall_impl; [exact Hge|].
        unfold declaredBefore. simpl. intros; lia.
    + intros Hb. destruct (IH _ _ Hb) as [Hge Hs]. split; [|exact Hs].
      eapply Forall_impl; [exact Hge|]. simpl. intros; lia.
Qed.

Lemma buildSchema_sorted (t : GoType) (schema : list Entry) :
  buildSchema t = inr schema -> StronglySorted declaredBefore schema.
Proof.
  destruct t as [k um|elemT|fields um]; simpl; try (intros [= <-]; constructor).
  intros H. eapply buildEntries_sorted, H.
Qed.

Lemma decodeEntries_app (coerce : Entry -> Val -> Outcome Val) (line : string)
    (pre post : list Entry) :
  forall rec,
    decodeEntries coerce line (pre ++ post)%list rec
    = match decodeEntries coerce line pre rec with
      | Returned rec1 None => decodeEntries coerce line post rec1
      | other => other
      end.
Proof.
  induction pre as [|e pre IH]; intros rec; simpl; [reflexivity|].
  destruct (rec !! eindex e) as [cur|]; [|reflexivity].
  destruct (coerce e cur) as [|v [err|]]; try reflexivity. apply IH.
Qed.

(** The loop writes to the positions of the entries it visits only. *)
Lemma decodeEntries_untouched (coerce : Entry -> Val -> Outcome Val)
    (line : string) (es : list Entry) :
  forall (rec rec' : list Val) (err : option error) (j : nat),
    decodeEntries coerce line es rec = Returned rec' err ->
    Forall (fun e => eindex e <> j) es ->
    rec' !! j = rec !! j.
Proof.
  induction es as [|e es IH]; intros rec rec' err j; simpl.
  - intros [= <- _] _. reflexivity.
  - destruct (rec !! eindex e) as [cur|]; [|discriminate].
    intros Hd Hne. apply Forall_cons in Hne as [Hne Hrest].
    destruct (coerce e cur) as [|v [e0|]]; [discriminate| |].
    + injection Hd as <- _. apply list_lookup_insert_ne, Hne.
    + rewrite (IH _ _ _ _ Hd Hrest). apply list_lookup_insert_ne, Hne.
Qed.

(** Handed to [setFieldValue], a struct without a custom decoder is an
    unsupported kind: the descent into a nested record is the mapper's. *)
Lemma setFieldValue_struct_unsupported (fields : list (StructField GoType))
    (fl : reflect.flag) (cur : Val) (value : string) :
  setFieldValue (TStruct fields None) fl cur value
  = Returned cur (Some (Errorf ErrUnsupportedKind reflect.Struct)).
Proof. reflexivity. Qed.

(** *** Nested records *)

(** An error of a field of a supported type is never the unsupported-kind
    error. *)
Lemma setFieldValue_supported_error (t : GoType) :
  forall (fl : reflect.flag) (cur : Val) (value : string) (v : Val) (err : error),
    supportedType t = true ->
    setFieldValue t fl cur value = Returned v (Some err) ->
    Is err ErrUnsupportedKind = false.
Proof.
  unfold supportedType.
  induction t as [k um|elemT IH|fields um]; intros fl cur value v err Hsup;
    apply andb_true_iff in Hsup as [Hfree Hkind].
  - destruct um; [discriminate|].
    destruct k; try (vm_compute in Hkind; discriminate); simpl;
      unfold SetInt, SetUint, SetFloat, SetString, SetBool;
      destruct (reflect.CanSet fl);
      repeat match goal with
             | |- context [let '(_, _) := ?p in _] => destruct p as [? [?|]]
             end; simpl; try discriminate; intros [= _ <-]; reflexivity.
  - simpl in Hfree, Hkind. simpl.
    destruct (if IsNil cur then Set_ fl (VPtr (Some (Zero elemT))) else Some cur)
      as [cur1|]; [|discriminate].
    destruct (setFieldValue elemT (reflect.ElemFlag fl) (Elem cur1) value)
      as [|elem [e|]] eqn:Hin; [discriminate| |].
    + intros [= _ <-]. eapply IH; [|exact Hin]. rewrite Hfree. exact Hkind.
    + unfold Set_. destruct (IsZero elem && reflect.CanSet fl);
        [destruct (reflect.CanSet fl)
        |destruct (IsNil cur1 && negb (IsZero elem)); [destruct (reflect.CanSet fl)|]];
        simpl; discriminate.
  - vm_compute in Hkind. discriminate.
Qed.

(** An error of the loop is the error of the coercion of one of its
    entries, wrapped with the name and the raw slice of that entry. *)
Lemma decodeEntries_error_cause (coerce : Entry -> Val -> Outcome Val)
    (line : string) (es : list Entry) :
  forall (rec rec' : list Val) (err : error),
    decodeEntries coerce line es rec = Returned rec' (Some err) ->
    exists e cur v cause,
      e ∈ es /\ coerce e cur = Returned v (Some cause)
      /\ err = FieldError (ename e) (sliceLine (erange e) line) cause.
Proof.
  induction es as [|e es IH]; intros rec rec' err; simpl; [discriminate|].
  destruct (rec !! eindex e) as [cur|]; [|discriminate].
  destruct (coerce e cur) as [|v [e0|]] eqn:Hc; [discriminate| |].
  - intros [= _ <-]. exists e, cur, v, e0. split; [left|split; [exact Hc|reflexivity]].
  - intros Hd. destruct (IH _ _ _ Hd) as (e' & cur' & v' & cause & Hin & Hc' & ->).
    exists e', cur', v', cause. split; [right; exact Hin|split; [exact Hc'|reflexivity]].
Qed.

(** Decoding an entry whose leaves are all of supported types never
    fails with the unsupported-kind error, at any depth of nesting. *)
Lemma decodeEntry_supported_error (line : string) (e : Entry) :
  leavesSupported e = true ->
  forall (cur v : Val) (err : error),
    decodeEntry line e cur = Returned v (Some err) ->
    Is err ErrUnsupportedKind = false.
Proof.
  induction e as [i n t r|i n r sub IH] using Entry_nested_ind;
    intros Hsup cur v err.
  - simpl in *. apply setFieldValue_supported_error, Hsup.
  - simpl in Hsup. cbn [decodeEntry]. destruct cur as [| | | | | |vs|]; try discriminate.
    destruct (decodeEntries (decodeEntry line) line sub vs) as [|vs' [e0|]] eqn:Hd;
      try discriminate.
    intros [= _ <-].
    destruct (decodeEntries_error_cause _ _ _ _ _ _ Hd)
      as (e' & cur' & v' & cause & Hin & Hc & ->).
    rewrite Forall_forall in IH. rewrite forallb_forall in Hsup.
    cbn [Is]. destruct (decide (FieldError (ename e') (sliceLine (erange e') line) cause
                                = ErrUnsupportedKind)); [discriminate|].
    eapply (IH e' Hin); [|exact Hc].
    apply Hsup. apply list_elem_of_In. exact Hin.
Qed.

(** When the loop succeeds over entries in declared order, each entry has
    been coerced from what the target held at its position, and the
    result holds the coerced value there. *)
Lemma decodeEntries_success (coerce : Entry -> Val -> Outcome Val)
    (line : string) (es : list Entry) :
  StronglySorted declaredBefore es ->
  forall rec rec',
    decodeEntries coerce line es rec = Returned rec' None ->
    forall e, e ∈ es ->
      exists cur v,
        rec !! eindex e = Some cur /\ coerce e cur = Returned v None
        /\ rec' !! eindex e = Some v.
Proof.
  induction 1 as [|e0 es Hs IH Hlt]; intros rec rec' Hd e Hin; [inversion Hin|].
  simpl in Hd.
  destruct (rec !! eindex e0) as [cur0|] eqn:Hcur0; [|discriminate].
  destruct (coerce e0 cur0) as [|v0 [err|]] eqn:Hc0; try discriminate.
  rewrite Forall_forall in Hlt.
  apply elem_of_cons in Hin as [->|Hin].
  - exists cur0, v0. split; [exact Hcur0|split; [exact Hc0|]].
    rewrite (decodeEntries_untouched _ _ _ _ _ _ (eindex e0) Hd).
    + apply list_lookup_insert_eq. eapply lookup_lt_Some, Hcur0.
    + apply Forall_forall. intros q Hq. specialize (Hlt q Hq).
      unfold declaredBefore in Hlt. lia.
  - destruct (IH _ _ Hd e Hin) as (cur & v & Hcur & Hc & Hres).
    exists cur, v. split; [|split; assumption].
    specialize (Hlt e Hin). unfold declaredBefore in Hlt.
    rewrite list_lookup_insert_ne in Hcur by lia. exact Hcur.
Qed.

Lemma entryOf_descends (schemaOf : GoType -> error + list Entry) (i : nat)
    (f : StructField GoType) (r : Range) (e : Entry) :
  entryOf schemaOf i f r = inr e ->
  if descends (Typ f)
  then exists sub, schemaOf (Typ f) = inr sub /\ e = Nested i (Name f) r sub
  else e = Leaf i (Name f) (Typ f) r.
Proof.
  unfold entryOf, descends.
  destruct (Typ f) as [k um|elemT|fields [um|]]; try (intros [= <-]; reflexivity).
  destruct (schemaOf (TStruct fields None)) as [|sub]; [discriminate|].
  intros [= <-]. eauto.
Qed.

(** A built schema has, for each declared field that carries a
    declaration, the entry of that field at the field's position. *)
Lemma buildEntries_lookup (schemaOf : GoType -> error + list Entry)
    (fs : list (StructField GoType)) :
  forall (i0 : nat) (es : list Entry) (k : nat) (f : StructField GoType)
         (decl : string),
    buildEntries schemaOf i0 fs = inr es ->
    fs !! k = Some f -> Tag f = Some decl ->
    exists r e,
      parseRange decl = inr r /\ entryOf schemaOf (i0 + k) f r = inr e /\ e ∈ es.
Proof.
  induction fs as [|g fs IH]; intros i0 es k f decl Hb Hk Htag; [discriminate|].
  simpl in Hb. destruct k as [|k]; simpl in Hk.
  - injection Hk as ->. rewrite Htag in Hb.
    destruct (parseRange decl) as [|r]; [discriminate|].
    destruct (entryOf schemaOf i0 f r) as [|e] eqn:He; [discriminate|].
    destruct (buildEntries schemaOf (S i0) fs) as [|es']; [discriminate|].
    injection Hb as <-. exists r, e. rewrite Nat.add_0_r.
    split; [reflexivity|split; [exact He|left]].
  - assert (Htail : forall es', buildEntries schemaOf (S i0) fs = inr es' ->
               exists r e, parseRange decl = inr r
                           /\ entryOf schemaOf (i0 + S k) f r = inr e /\ e ∈ es').
    { intros es' Hb'. replace (i0 + S k)%nat with (S i0 + k)%nat by lia.
      eapply IH; eassumption. }
    destruct (Tag g) as [d|].
    + destruct (parseRange d) as [|r0]; [discriminate|].
      destruct (entryOf schemaOf i0 g r0) as [|e0]; [discriminate|].
      destruct (buildEntries schemaOf (S i0) fs) as [|es'] eqn:Hb'; [discriminate|].
      injection Hb as <-. destruct (Htail es' eq_refl) as (r & e & Hr & He & Hin).
      exists r, e. split; [exact Hr|split; [exact He|right; exact Hin]].
    + apply Htail, Hb.
Qed.

(** C4. A field whose type is a struct without a custom decoder has a
    nested entry in the schema, so it is decoded by the record mapper and
    not handed to [setFieldValue].  When [Unmarshal] succeeds, the nested
    record it leaves in the field is what [Unmarshal] gives for the
    nested type on the same whole line, and every leaf field of the
    nested type holds the coercion of the slice its own range cuts from
    that line, whatever the range of the enclosing field.  When decoding
    the field fails, the error is that of one of the nested fields, and
    it is never the unsupported-kind error when the leaves of the nested
    schema are of supported types. *)
Theorem nested_struct_decoded_from_whole_line (line : string)
    (fields subfields : list (StructField GoType)) (um : option Unmarshaler)
    (i : nat) (f : StructField GoType) (decl : string) (schema : list Entry) :
  fields !! i = Some f -> Tag f = Some decl -> Typ f = TStruct subfields None ->
  buildSchema (TStruct fields um) = inr schema ->
  exists r sub,
    parseRange decl = inr r /\ buildSchema (Typ f) = inr sub
    /\ Nested i (Name f) r sub ∈ schema
    /\ (forall target rec,
          Unmarshal line (TStruct fields um) target = Returned rec None ->
          exists vs vs',
            target !! i = Some (VStruct vs) /\ rec !! i = Some (VStruct vs')
            /\ Unmarshal line (Typ f) vs = Returned vs' None
            /\ forall j g d,
                 subfields !! j = Some g -> Tag g = Some d ->
                 descends (Typ g) = false ->
                 exists r' cur v,
                   parseRange d = inr r' /\ vs !! j = Some cur /\ vs' !! j = Some v
                   /\ setFieldValue (Typ g) fieldFlag cur (sliceLine r' line)
                      = Returned v None)
    /\ (forall cur v err,
          decodeEntry line (Nested i (Name f) r sub) cur = Returned v (Some err) ->
          (exists e' cur' v' cause,
              e' ∈ sub /\ decodeEntry line e' cur' = Returned v' (Some cause)
              /\ err = FieldError (ename e') (sliceLine (erange e') line) cause)
          /\ (forallb leavesSupported sub = true ->
              Is err ErrUnsupportedKind = false)).
Proof.
  intros Hf Htag Ht Hsch.
  pose proof Hsch as Hbuild. simpl in Hbuild.
  destruct (buildEntries_lookup buildSchema fields 0%nat schema i f decl
              Hbuild Hf Htag) as (r & e & Hr & He & Hin).
  apply entryOf_descends in He. rewrite Ht in He. simpl in He.
  destruct He as (sub & Hsub & ->).
  change (buildSchema (TStruct subfields None) = inr sub) in Hsub.
  exists r, sub. rewrite Ht.
  split; [exact Hr|]. split; [exact Hsub|]. split; [exact Hin|]. split.
  - intros target rec Hcall.
    unfold Unmarshal in Hcall. rewrite Hsch in Hcall. unfold decodeRecord in Hcall.
    destruct (decodeEntries_success _ _ _ (buildSchema_sorted _ _ Hsch) _ _ Hcall
                _ Hin) as (cur & v & Hcur & Hdec & Hres).
    simpl eindex in *. cbn [decodeEntry] in Hdec.
    destruct cur as [| | | | | |vs|]; try discriminate.
    destruct (decodeEntries (decodeEntry line) line sub vs) as [|vs' [e0|]] eqn:Hd;
      try discriminate.
    injection Hdec as <-.
    exists vs, vs'. split; [exact Hcur|]. split; [exact Hres|]. split.
    + unfold Unmarshal. rewrite Hsub. exact Hd.
    + intros j g d Hg Htg Hleaf.
      pose proof Hsub as Hb. simpl in Hb.
      destruct (buildEntries_lookup buildSchema subfields 0%nat sub j g d
                  Hb Hg Htg) as (r' & e' & Hr' & He' & Hin').
      apply entryOf_descends in He'. rewrite Hleaf in He'. subst e'.
      destruct (decodeEntries_success _ _ _ (buildSchema_sorted _ _ Hsub) _ _ Hd
                  _ Hin') as (cur & v & Hc & Hdec & Hv).
      exists r', cur, v. repeat split; assumption.
  - intros cur v err Hdec. cbn [decodeEntry] in Hdec.
    destruct cur as [| | | | | |vs|]; try discriminate.
    destruct (decodeEntries (decodeEntry line) line sub vs) as [|vs' [e0|]] eqn:Hd;
      try discriminate.
    injection Hdec as _ <-. split.
    + eapply decodeEntries_error_cause, Hd.
    + intros Hsup.
      apply (decodeEntry_supported_error line (Nested i (Name f) r sub) Hsup
               (VStruct vs) (VStruct vs') e0).
      cbn [decodeEntry]. rewrite Hd. reflexivity.
Qed.

(** C9. The record mapper visits the schema entries in declared order;
    when the entries before [e] decode and the coercion of [e] fails, the
    call stops there and returns one error that names the field of [e],
    its raw slice and the cause; the fields of the later entries, which
    are declared after [e], still hold what the target held on entry. *)
Theorem unmarshal_fail_fast (line : string) (t : GoType)
    (pre post : list Entry) (e : Entry) (target rec1 : list Val)
    (cur v : Val) (err : error) :
  buildSchema t = inr (pre ++ e :: post)%list ->
  decodeRecord line pre target = Returned rec1 None ->
  rec1 !! eindex e = Some cur ->
  decodeEntry line e cur = Returned v (Some err) ->
  Unmarshal line t target
  = Returned (<[eindex e := v]> rec1)
      (Some (FieldError (ename e) (sliceLine (erange e) line) err))
  /\ Forall (fun p => declaredBefore e p
                    /\ <[eindex e := v]> rec1 !! eindex p = target !! eindex p) post.
Proof.
  intros Hsch Hpre Hcur Hfail. split.
  - unfold Unmarshal, decodeRecord in *. rewrite Hsch, decodeEntries_app, Hpre.
    simpl. rewrite Hcur, Hfail. reflexivity.
  - apply buildSchema_sorted in Hsch.
    apply Forall_forall. intros p Hp.
    assert (Hep : declaredBefore e p).
    { apply StronglySorted_app_1_r, StronglySorted_cons in Hsch as [Hall _].
      rewrite Forall_forall in Hall. apply Hall, Hp. }
    split; [exact Hep|].
    unfold declaredBefore in Hep.
    rewrite list_lookup_insert_ne by lia.
    eapply decodeEntries_untouched; [exact Hpre|].
    apply Forall_forall. intros q Hq.
    assert (declaredBefore q e) as Hqe.
    { eapply (StronglySorted_app_1_elem_of _ pre (e :: post)); [exact Hsch|exact Hq|left]. }
    unfold declaredBefore in Hqe. lia.
Qed.

(** C8. The empty declaration, a declaration without a comma, one with a
    component that is no numeral, and one whose numbers have
    [start == end], [start > end] with [end] not [-1], or [end < -1] are
    all rejected with the invalid-range error; and a record type with
    such a declaration on a field makes [Unmarshal] return that error for
    every line, the target untouched: the schema is resolved before any
    of the line is decoded. *)
Theorem invalid_declarations_rejected :
  (exists msg, parseRange "" = inl (ErrInvalidRange msg))
  /\ (forall decl, cut "," decl = None ->
       exists msg, parseRange decl = inl (ErrInvalidRange msg))
  /\ (forall a b, isNumeral a = false \/ isNumeral b = false ->
       exists msg, parseRange (a ++ "," ++ b) = inl (ErrInvalidRange msg))
  /\ (forall a b s e, parseInteger a = Some s -> parseInteger b = Some e ->
       s = e \/ (s > e /\ e <> -1) \/ e < -1 ->
       exists msg, parseRange (a ++ "," ++ b) = inl (ErrInvalidRange msg))
  /\ (forall fields um f decl msg,
       f ∈ fields -> Tag f = Some decl -> parseRange decl = inl (ErrInvalidRange msg) ->
       exists msg', forall line target,
         Unmarshal line (TStruct fields um) target
         = Returned target (Some (ErrInvalidRange msg'))).
Proof.
  split; [|split; [|split; [|split]]].
  - eexists. reflexivity.
  - intros decl Hcut. unfold parseRange. rewrite Hcut.
    destruct (decide (decl = "")); eauto.
  - intros a b H. eexists. apply (parseRange_non_numeric a b H).
  - intros a b s e Ha Hb H.
    change ("," ++ b) with (String "," b).
    rewrite (parseRange_numerals _ _ _ _ Ha Hb).
    destruct (s <? 0) eqn:H1; [eauto|].
    destruct (e =? -1) eqn:H2; [lia|].
    destruct (e <? -1) eqn:H3; [eauto|].
    destruct (s =? e) eqn:H4; [eauto|].
    destruct (e <? s) eqn:H5; [eauto|]. lia.
  - intros fields um f decl msg Hin Htag Hbad.
    destruct (buildEntries_bad_tag buildSchema fields f decl _
                buildSchema_error Hin Htag Hbad 0%nat) as [msg' Hb].
    exists msg'. intros line target. unfold Unmarshal. simpl. rewrite Hb. reflexivity.
Qed.

(** *** Further properties of the type coercer *)

(** X1. Whatever the type of a settable field, its contents and the
    slice, [setFieldValue] returns: it does not panic. *)
Theorem settable_field_never_panics (t : GoType) (fl : reflect.flag)
    (cur : Val) (value : string) :
  reflect.CanSet fl = true ->
  exists v err, setFieldValue t fl cur value = Returned v err.
Proof.
  intros Hset.
  pose proof (setFieldValue_no_panic t fl cur value Hset) as Hnp.
  destruct (setFieldValue t fl cur value) as [|v err]; [congruence|eauto].
Qed.

(** X2. On an addressable field that is read-only, as an unexported
    struct field is, no call succeeds: it panics or returns an error. *)
Theorem read_only_field_never_set (t : GoType) (fl : reflect.flag)
    (cur : Val) (value : string) (r : Val) :
  reflect.flagAddr fl = true -> reflect.flagRO fl = true ->
  setFieldValue t fl cur value <> Returned r None.
Proof.
  intros Haddr Hro Hcall.
  apply setFieldValue_ok_settable in Hcall; [|exact Haddr].
  unfold reflect.CanSet in Hcall. rewrite Haddr, Hro in Hcall. discriminate.
Qed.

(** X3. Without a custom decoder and with every pointer on the way
    already allocated, a call that returns an error has not changed the
    field. *)
Theorem failure_leaves_field_unchanged (t : GoType) :
  forall (fl : reflect.flag) (cur : Val) (value : string) (v : Val) (err : error),
    decoderFree t = true -> allocated t cur = true ->
    setFieldValue t fl cur value = Returned v (Some err) ->
    v = cur.
Proof.
  induction t as [k um|elemT IH|fields um]; intros fl cur value v err Hfree Halloc.
  - destruct um; [discriminate|].
    destruct k; simpl;
      unfold SetInt, SetUint, SetFloat, SetString, SetBool;
      destruct (reflect.CanSet fl);
      repeat match goal with
             | |- context [let '(_, _) := ?p in _] => destruct p as [? [?|]]
             end; simpl; try discriminate; intros [= <- _]; reflexivity.
  - simpl in Hfree, Halloc. destruct cur as [| | | | |[p|]| |]; try discriminate.
    simpl.
    destruct (setFieldValue elemT (reflect.ElemFlag fl) p value)
      as [|elem [e|]] eqn:Hin; [discriminate| |].
    + intros [= <- <-]. apply IH in Hin; [|assumption|assumption]. congruence.
    + unfold Set_. destruct (IsZero elem && reflect.CanSet fl);
        [destruct (reflect.CanSet fl)|]; simpl; discriminate.
  - destruct um; [discriminate|]. simpl. intros [= <- _]. reflexivity.
Qed.

(** X4. Without a custom decoder, an error of [setFieldValue] matches,
    under [errors.Is], the sentinel of the kind at the end of the
    pointers and no other sentinel of the package: the integer kinds
    give [ErrInvalidIntValue], the float kinds [ErrInvalidFloatValue],
    bool [ErrInvalidBooleanValue], every kind without a case, [uintptr]
    among them, [ErrUnsupportedKind]; a string field gives none. *)
Theorem error_matches_one_sentinel (t : GoType) :
  forall (fl : reflect.flag) (cur : Val) (value : string) (v : Val) (err : error),
    decoderFree t = true ->
    setFieldValue t fl cur value = Returned v (Some err) ->
    Kind (baseType t) <> reflect.String
    /\ forall s, s ∈ sentinels ->
         Is err s = bool_decide (s = sentinelOf (Kind (baseType t))).
Proof.
  induction t as [k um|elemT IH|fields um]; intros fl cur value v err Hfree.
  - destruct um; [discriminate|].
    destruct k; simpl;
      unfold SetInt, SetUint, SetFloat, SetString, SetBool;
      destruct (reflect.CanSet fl);
      repeat match goal with
             | |- context [let '(_, _) := ?p in _] => destruct p as [? [?|]]
             end; simpl; try discriminate; intros [= _ <-];
      (split; [discriminate|]); intros s Hs;
      unfold sentinels in Hs;
      repeat (apply elem_of_cons in Hs as [->|Hs]);
      try (inversion Hs; fail); reflexivity.
  - simpl in Hfree. simpl.
    destruct (if IsNil cur then Set_ fl (VPtr (Some (Zero elemT))) else Some cur)
      as [cur1|]; [|discriminate].
    destruct (setFieldValue elemT (reflect.ElemFlag fl) (Elem cur1) value)
      as [|elem [e|]] eqn:Hin; [discriminate| |].
    + intros [= _ <-]. eapply IH; eassumption.
    + unfold Set_. destruct (IsZero elem && reflect.CanSet fl);
        [destruct (reflect.CanSet fl)
        |destruct (IsNil cur1 && negb (IsZero elem)); [destruct (reflect.CanSet fl)|]];
        simpl; discriminate.
  - destruct um; [discriminate|]. simpl. intros [= _ <-].
    split; [discriminate|]. intros s Hs. unfold sentinels in Hs.
    repeat (apply elem_of_cons in Hs as [->|Hs]);
      try (inversion Hs; fail); reflexivity.
Qed.

(** X5. Without a custom decoder, what a successful call on a settable
    field stores does not depend on what the field held: decoding the
    same slice into any other contents, the result itself among them,
    gives the same field. *)
Theorem success_overwrites_field (t : GoType) :
  forall (fl : reflect.flag) (cur cur' : Val) (value : string) (v : Val),
    reflect.CanSet fl = true -> decoderFree t = true ->
    setFieldValue t fl cur value = Returned v None ->
    setFieldValue t fl cur' value = Returned v None
    /\ setFieldValue t fl v value = Returned v None.
Proof.
  assert (Hind : forall t (fl : reflect.flag) (cur cur' : Val) (value : string) (v : Val),
             reflect.CanSet fl = true -> decoderFree t = true ->
             setFieldValue t fl cur value = Returned v None ->
             setFieldValue t fl cur' value = Returned v None).
  { clear t. induction t as [k um|elemT IH|fields um];
      intros fl cur cur' value v Hset Hfree.
    - destruct um; [discriminate|].
      destruct k; simpl;
        repeat match goal with
               | |- context [let '(_, _) := ?p in _] => destruct p as [? [?|]]
               end; simpl; try discriminate; trivial.
    - simpl in Hfree. intros Hcall.
      assert (exists elem p,
                 setFieldValue elemT (reflect.ElemFlag fl) p value = Returned elem None
                 /\ v = if IsZero elem then VPtr None else VPtr (Some elem))
        as (elem & p & Hin & ->).
      { simpl in Hcall. unfold Set_ in Hcall. rewrite Hset in Hcall.
        destruct (IsNil cur) eqn:Hnil.
        - destruct (setFieldValue elemT (reflect.ElemFlag fl)
                      (Elem (VPtr (Some (Zero elemT)))) value)
            as [|elem [e|]] eqn:Hin; try discriminate.
          exists elem, (Elem (VPtr (Some (Zero elemT)))). split; [exact Hin|].
          rewrite andb_true_r in Hcall.
          destruct (IsZero elem); simpl in Hcall; congruence.
        - destruct (setFieldValue elemT (reflect.ElemFlag fl) (Elem cur) value)
            as [|elem [e|]] eqn:Hin; try discriminate.
          exists elem, (Elem cur). split; [exact Hin|].
          rewrite Hnil in Hcall.
          rewrite andb_true_r in Hcall.
          destruct (IsZero elem); simpl in Hcall; congruence. }
      apply setFieldValue_ptr_ok; [exact Hset|].
      eapply IH; [apply CanSet_ElemFlag, Hset|exact Hfree|exact Hin].
    - destruct um; [discriminate|]. simpl. discriminate. }
  intros fl cur cur' value v Hset Hfree Hcall. split; eapply Hind; eassumption.
Qed.

(** X6. Through any number of pointers, a nil field whose base value
    decodes to the zero value stays nil at the outermost pointer, and a
    non-zero base value ends up behind that many fresh pointers. *)
Theorem pointer_chain_collapses (t : GoType) (fl : reflect.flag)
    (value : string) (v : Val) (n : nat) :
  reflect.CanSet fl = true ->
  setFieldValue t (reflect.ElemFlag fl) (Zero t) value = Returned v None ->
  setFieldValue (ptrTo (S n) t) fl (VPtr None) value
  = Returned (if IsZero v then VPtr None else boxed (S n) v) None.
Proof.
  intros Hset Hbase. revert fl Hset Hbase.
  induction n as [|n IH]; intros fl Hset Hbase.
  - simpl ptrTo. rewrite (setFieldValue_ptr_ok t fl (VPtr None) value v Hset Hbase).
    reflexivity.
  - change (ptrTo (S (S n)) t) with (TPtr (ptrTo (S n) t)).
    assert (Hin : setFieldValue (ptrTo (S n) t) (reflect.ElemFlag fl)
                    (pointee (ptrTo (S n) t) (VPtr None)) value
                  = Returned (if IsZero v then VPtr None else boxed (S n) v) None).
    { apply IH; [apply CanSet_ElemFlag, Hset|exact Hbase]. }
    rewrite (setFieldValue_ptr_ok _ fl (VPtr None) value _ Hset Hin).
    destruct (IsZero v); reflexivity.
Qed.

(** *** Integer fields under any flag *)

Lemma signed_field_unfold (k : reflect.Kind) (w : Z) (um : option Unmarshaler)
    (fl : reflect.flag) (cur : Val) (value : string) :
  (k, w) ∈ signedKinds ->
  setFieldValue (TBasic k um) fl cur value
  = (let '(intVal, err) := strconv.ParseInt value 10 w in
     match err with
     | Some err => Returned cur (Some (Join ErrInvalidIntValue (NumErr err)))
     | None => assigned (SetInt k fl intVal)
     end)
  /\ 2 <= w <= reflect.bits k /\ reflect.bits k <= 64
  /\ k ∈ [reflect.Int; reflect.Int8; reflect.Int16; reflect.Int32; reflect.Int64].
Proof.
  unfold signedKinds. intros Hk.
  repeat (apply elem_of_cons in Hk as [[= -> ->]|Hk];
          [repeat split; try (vm_compute; discriminate);
           apply (bool_decide_unpack _); vm_compute; exact I|]).
  inversion Hk.
Qed.

Lemma unsigned_field_unfold (k : reflect.Kind) (w : Z) (um : option Unmarshaler)
    (fl : reflect.flag) (cur : Val) (value : string) :
  (k, w) ∈ unsignedKinds ->
  setFieldValue (TBasic k um) fl cur value
  = (let '(uintVal, err) := strconv.ParseUint value 10 w in
     match err with
     | Some err => Returned cur (Some (Join ErrInvalidIntValue (NumErr err)))
     | None => assigned (SetUint k fl uintVal)
     end)
  /\ 1 <= w <= reflect.bits k /\ reflect.bits k <= 64
  /\ k ∈ [reflect.Uint; reflect.Uint8; reflect.Uint16; reflect.Uint32; reflect.Uint64].
Proof.
  unfold unsignedKinds. intros Hk.
  repeat (apply elem_of_cons in Hk as [[= -> ->]|Hk];
          [repeat split; try (vm_compute; discriminate);
           apply (bool_decide_unpack _); vm_compute; exact I|]).
  inversion Hk.
Qed.

Lemma signed_field_ok (k : reflect.Kind) (w : Z) (um : option Unmarshaler)
    (fl : reflect.flag) (cur : Val) (value : string) (z : Z) :
  reflect.CanSet fl = true -> (k, w) ∈ signedKinds ->
  signedValue value = Some z -> inWidth w z = true ->
  setFieldValue (TBasic k um) fl cur value = Returned (VInt z) None.
Proof.
  intros Hset Hk Hv Hin.
  destruct (signed_field_unfold k w um fl cur value Hk) as (-> & Hw & Hbits & Hmem).
  pose proof (ParseInt_spec value w ltac:(lia)) as Hspec.
  rewrite Hv, Hin in Hspec. rewrite Hspec.
  pose proof (inWidth_le w (reflect.bits k) z ltac:(lia) Hin) as Hz.
  unfold SetInt. rewrite Hset.
  rewrite (truncS_small (reflect.bits k) z ltac:(lia) Hz).
  repeat (apply elem_of_cons in Hmem as [->|Hmem]; [reflexivity|]). inversion Hmem.
Qed.

Lemma unsigned_field_ok (k : reflect.Kind) (w : Z) (um : option Unmarshaler)
    (fl : reflect.flag) (cur : Val) (value : string) (v : Z) :
  reflect.CanSet fl = true -> (k, w) ∈ unsignedKinds ->
  unsignedValue value = Some v -> v < 2 ^ w ->
  setFieldValue (TBasic k um) fl cur value = Returned (VUint v) None.
Proof.
  intros Hset Hk Hv Hin.
  destruct (unsigned_field_unfold k w um fl cur value Hk) as (-> & Hw & Hbits & Hmem).
  pose proof (ParseUint_spec value w ltac:(lia)) as Hspec.
  pose proof (unsignedValue_nonneg _ _ Hv) as Hv0.
  rewrite Hv in Hspec. rewrite Hspec.
  destruct (v <=? 2 ^ w - 1) eqn:Hle; [|lia].
  assert (2 ^ w <= 2 ^ reflect.bits k) by (apply Z.pow_le_mono_r; lia).
  unfold SetUint. rewrite Hset. unfold reflect.truncU. rewrite Z.mod_small by lia.
  repeat (apply elem_of_cons in Hmem as [->|Hmem]; [reflexivity|]). inversion Hmem.
Qed.

Lemma signed_field_rejected (k : reflect.Kind) (w : Z) (um : option Unmarshaler)
    (fl : reflect.flag) (cur : Val) (value : string) :
  (k, w) ∈ signedKinds -> signedValue value = None ->
  exists e, setFieldValue (TBasic k um) fl cur value
            = Returned cur (Some (Join ErrInvalidIntValue (NumErr e))).
Proof.
  intros Hk Hv.
  destruct (signed_field_unfold k w um fl cur value Hk) as (-> & Hw & Hbits & _).
  pose proof (ParseInt_spec value w ltac:(lia)) as Hspec.
  rewrite Hv in Hspec. destruct Hspec as (n & e & ->). eauto.
Qed.

Lemma unsigned_field_rejected (k : reflect.Kind) (w : Z) (um : option Unmarshaler)
    (fl : reflect.flag) (cur : Val) (value : string) :
  (k, w) ∈ unsignedKinds -> unsignedValue value = None ->
  exists e, setFieldValue (TBasic k um) fl cur value
            = Returned cur (Some (Join ErrInvalidIntValue (NumErr e))).
Proof.
  intros Hk Hv.
  destruct (unsigned_field_unfold k w um fl cur value Hk) as (-> & Hw & Hbits & _).
  pose proof (ParseUint_spec value w ltac:(lia)) as Hspec.
  rewrite Hv in Hspec. destruct Hspec as [-> | ->]; eauto.
Qed.

Lemma digitsValue_bad_byte (s : string) (c : ascii) :
  c ∈ bytes s -> isDigit c = false -> forall acc, digitsValue acc s = None.
Proof.
  induction s as [|c0 s IH]; simpl; intros Hin Hc acc; [inversion Hin|].
  apply elem_of_cons in Hin as [<-|Hin]; [rewrite Hc; reflexivity|].
  destruct (isDigit c0); [apply IH; assumption|reflexivity].
Qed.

Lemma unsignedValue_bad_byte (s : string) (c : ascii) :
  c ∈ bytes s -> isDigit c = false -> unsignedValue s = None.
Proof.
  intros Hin Hc. destruct s as [|c0 s]; [reflexivity|].
  apply (digitsValue_bad_byte _ c Hin Hc).
Qed.

Lemma signedValue_bad_byte (s : string) (c : ascii) :
  c ∈ bytes s -> isDigit c = false -> c <> "+"%char -> c <> "-"%char ->
  signedValue s = None.
Proof.
  intros Hin Hc Hplus Hminus. destruct s as [|c0 s]; [reflexivity|].
  unfold signedValue.
  destruct (Ascii.eqb c0 "+") eqn:H1; [|destruct (Ascii.eqb c0 "-") eqn:H2].
  - apply Ascii.eqb_eq in H1 as ->. simpl in Hin.
    apply elem_of_cons in Hin as [->|Hin]; [congruence|].
    apply (unsignedValue_bad_byte _ c Hin Hc).
  - apply Ascii.eqb_eq in H2 as ->. simpl in Hin.
    apply elem_of_cons in Hin as [->|Hin]; [congruence|].
    rewrite (unsignedValue_bad_byte _ c Hin Hc). reflexivity.
  - apply (digitsValue_bad_byte _ c Hin Hc).
Qed.

(** X7. No integer kind trims its slice: an empty slice, and a slice
    with a byte that is neither a digit nor a sign, such as a padding
    blank, is rejected by each of the ten integer kinds with an error
    that joins [ErrInvalidIntValue], under any flag, the field left as
    it was. *)
Theorem integer_field_rejects_padding (um : option Unmarshaler)
    (fl : reflect.flag) (cur : Val) (value : string) :
  value = ""
  \/ (exists c, c ∈ bytes value /\ isDigit c = false
                /\ c <> "+"%char /\ c <> "-"%char) ->
  Forall (fun kw : reflect.Kind * Z =>
            exists e, setFieldValue (TBasic kw.1 um) fl cur value
                      = Returned cur (Some (Join ErrInvalidIntValue (NumErr e))))
         (signedKinds ++ unsignedKinds)%list.
Proof.
  intros Hbad.
  assert (signedValue value = None /\ unsignedValue value = None) as [Hs Hu].
  { destruct Hbad as [->|(c & Hin & Hc & Hp & Hm)]; [split; reflexivity|].
    split; [eapply signedValue_bad_byte|eapply unsignedValue_bad_byte]; eassumption. }
  apply Forall_app. split; apply Forall_forall; intros [k w] Hk; cbn [fst snd].
  - eapply signed_field_rejected; eassumption.
  - eapply unsigned_field_rejected; eassumption.
Qed.

Lemma isDigit_not_sign (c : ascii) :
  isDigit c = true -> Ascii.eqb c "+" = false /\ Ascii.eqb c "-" = false.
Proof.
  intros Hc. split.
  - destruct (Ascii.eqb c "+") eqn:H; [|reflexivity].
    apply Ascii.eqb_eq in H as ->. vm_compute in Hc. discriminate.
  - destruct (Ascii.eqb c "-") eqn:H; [|reflexivity].
    apply Ascii.eqb_eq in H as ->. vm_compute in Hc. discriminate.
Qed.

(** X8. A leading sign: the five unsigned kinds reject every slice that
    starts with [+] or [-], while for the five signed kinds a [+] before
    text that starts with a digit changes nothing in a successful
    decode. *)
Theorem leading_sign_handling (um : option Unmarshaler) (fl : reflect.flag)
    (cur : Val) (c : ascii) (rest : string) :
  (c = "+"%char \/ c = "-"%char ->
   Forall (fun kw : reflect.Kind * Z =>
             exists e, setFieldValue (TBasic kw.1 um) fl cur (String c rest)
                       = Returned cur (Some (Join ErrInvalidIntValue (NumErr e))))
          unsignedKinds)
  /\ (isDigit c = true ->
      Forall (fun kw : reflect.Kind * Z =>
                forall v,
                  setFieldValue (TBasic kw.1 um) fl cur (String "+" (String c rest))
                  = Returned v None
                  <-> setFieldValue (TBasic kw.1 um) fl cur (String c rest)
                      = Returned v None)
             signedKinds).
Proof.
  split.
  - intros Hc. apply Forall_forall. intros [k w] Hk. cbn [fst snd].
    eapply unsigned_field_rejected; [exact Hk|].
    unfold unsignedValue. simpl.
    destruct Hc as [-> | ->]; reflexivity.
  - intros Hc. apply Forall_forall. intros [k w] Hk v. cbn [fst snd].
    destruct (isDigit_not_sign c Hc) as [Hplus Hminus].
    assert (Hsame : signedValue (String "+" (String c rest))
                    = signedValue (String c rest)).
    { unfold signedValue at 2. rewrite Hplus, Hminus. reflexivity. }
    destruct (signed_field_unfold k w um fl cur (String "+" (String c rest)) Hk)
      as (-> & Hw & Hbits & _).
    destruct (signed_field_unfold k w um fl cur (String c rest) Hk) as (-> & _).
    pose proof (ParseInt_spec (String "+" (String c rest)) w ltac:(lia)) as H1.
    pose proof (ParseInt_spec (String c rest) w ltac:(lia)) as H2.
    rewrite Hsame in H1.
    destruct (signedValue (String c rest)) as [z|].
    + rewrite H1, H2. destruct (inWidth w z); [reflexivity|].
      split; discriminate.
    + destruct H1 as (n1 & e1 & ->). destruct H2 as (n2 & e2 & ->).
      split; discriminate.
Qed.

Lemma digitsValue_zeroPad (n : nat) (s : string) :
  digitsValue 0 (zeroPad n s) = digitsValue 0 s.
Proof. induction n as [|n IH]; simpl; [reflexivity|exact IH]. Qed.

Lemma digitsValue_Itoa (z : Z) :
  0 <= z ->
  digitsValue 0 (Itoa z) = Some z
  /\ exists c rest, Itoa z = String c rest /\ isDigit c = true.
Proof.
  intros Hz. destruct z as [|p|p]; [split; [reflexivity|]| |lia].
  { exists "0"%char, "". split; reflexivity. }
  unfold Itoa, Z.to_int, NilZero.string_of_int.
  pose proof (DecimalPos.Unsigned.to_uint_nonnil p) as Hnil.
  pose proof (digitsValue_string_of_uint (Pos.to_uint p) 0) as Hv.
  rewrite decimalValue_to_uint in Hv.
  rewrite (string_of_uint_nonnil _ Hnil). split; [exact Hv|].
  destruct (Pos.to_uint p); try congruence; simpl; eauto.
Qed.

Lemma parseInteger_signedValue (s : string) (z : Z) :
  parseInteger s = Some z -> signedValue s = Some z.
Proof.
  destruct s as [|c s]; [discriminate|]. unfold parseInteger, signedValue.
  destruct (Ascii.eqb c "-") eqn:Hminus.
  - apply Ascii.eqb_eq in Hminus as ->. change (Ascii.eqb "-" "+") with false.
    cbn iota. destruct s; [discriminate|]. trivial.
  - destruct (Ascii.eqb c "+") eqn:Hplus; [|trivial].
    apply Ascii.eqb_eq in Hplus as ->. discriminate.
Qed.

Lemma zeroPad_digits (n : nat) (s : string) (c : ascii) (rest : string) (z : Z) :
  s = String c rest -> isDigit c = true -> digitsValue 0 s = Some z ->
  signedValue (zeroPad n s) = Some z /\ unsignedValue (zeroPad n s) = Some z.
Proof.
  intros -> Hc Hv.
  destruct (isDigit_not_sign c Hc) as [Hplus Hminus].
  destruct n as [|n]; simpl zeroPad.
  - unfold signedValue, unsignedValue. rewrite Hplus, Hminus. split; exact Hv.
  - unfold signedValue, unsignedValue.
    change (Ascii.eqb "0" "+") with false. change (Ascii.eqb "0" "-") with false.
    cbn iota.
    change (String "0" (zeroPad n (String c rest)))
      with (zeroPad (S n) (String c rest)).
    rewrite digitsValue_zeroPad. split; exact Hv.
Qed.

(** X9. Decimal round trip: for each integer kind the decimal text of a
    value that fits the bit size of its case decodes to that value, and
    for a non-negative value so does the text behind any number of
    leading zeros. *)
Theorem decimal_text_round_trip (um : option Unmarshaler) (fl : reflect.flag)
    (cur : Val) (z : Z) :
  reflect.CanSet fl = true ->
  Forall (fun kw : reflect.Kind * Z =>
            inWidth kw.2 z = true ->
            setFieldValue (TBasic kw.1 um) fl cur (Itoa z) = Returned (VInt z) None
            /\ (0 <= z -> forall n,
                  setFieldValue (TBasic kw.1 um) fl cur (zeroPad n (Itoa z))
                  = Returned (VInt z) None))
         signedKinds
  /\ Forall (fun kw : reflect.Kind * Z =>
               0 <= z < 2 ^ kw.2 -> forall n,
                 setFieldValue (TBasic kw.1 um) fl cur (zeroPad n (Itoa z))
                 = Returned (VUint z) None)
            unsignedKinds.
Proof.
  intros Hset. split; apply Forall_forall; intros [k w] Hk; cbn [fst snd].
  - intros Hin. split.
    + eapply signed_field_ok; try eassumption.
      apply parseInteger_signedValue, parseInteger_Itoa.
    + intros Hz n.
      destruct (digitsValue_Itoa z Hz) as (Hv & c & rest & Hs & Hc).
      eapply signed_field_ok; try eassumption.
      eapply zeroPad_digits; eassumption.
  - intros Hz n.
    destruct (digitsValue_Itoa z ltac:(lia)) as (Hv & c & rest & Hs & Hc).
    eapply unsigned_field_ok; try eassumption; [|lia].
    eapply zeroPad_digits; eassumption.
Qed.

(** X10. A pointer to string, nil or not, ends up nil exactly for the
    empty slice; any other slice, one of blanks included, is what the
    pointer then holds. *)
Theorem string_pointer_nil_iff_empty (um : option Unmarshaler)
    (fl : reflect.flag) (cur : Val) (value : string) :
  reflect.CanSet fl = true ->
  setFieldValue (TPtr (TBasic reflect.String um)) fl cur value
  = Returned (if bool_decide (value = "") then VPtr None
              else VPtr (Some (VString value))) None.
Proof.
  intros Hset.
  rewrite (setFieldValue_ptr_ok (TBasic reflect.String um) fl cur value
             (VString value) Hset).
  - reflexivity.
  - simpl. unfold SetString. rewrite (CanSet_ElemFlag _ Hset). reflexivity.
Qed.

Lemma setFieldValue_ptr_err (elemT : GoType) (fl : reflect.flag) (cur : Val)
    (value : string) (v : Val) (err : error) :
  reflect.CanSet fl = true ->
  setFieldValue elemT (reflect.ElemFlag fl) (pointee elemT cur) value
  = Returned v (Some err) ->
  setFieldValue (TPtr elemT) fl cur value = Returned (VPtr (Some v)) (Some err).
Proof.
  intros Hset Hin. simpl. unfold Set_, pointee in *. rewrite Hset.
  destruct (IsNil cur); simpl in *; rewrite Hin; reflexivity.
Qed.

(** X11. A pointer to a signed integer: a numeral of value zero, such
    as 0, 000 or -0, leaves the pointer nil, any other numeral that fits
    is what the pointer then holds, and text that is no numeral, a blank
    slice for one, is an error with the pointer left non-nil on its
    unchanged or fresh pointee. *)
Theorem integer_pointer_zero_is_nil (k : reflect.Kind) (w : Z)
    (um : option Unmarshaler) (fl : reflect.flag) (cur : Val) (value : string) :
  reflect.CanSet fl = true -> (k, w) ∈ signedKinds ->
  match signedValue value with
  | Some z =>
      inWidth w z = true ->
      setFieldValue (TPtr (TBasic k um)) fl cur value
      = Returned (if z =? 0 then VPtr None else VPtr (Some (VInt z))) None
  | None =>
      exists e,
        setFieldValue (TPtr (TBasic k um)) fl cur value
        = Returned (VPtr (Some (pointee (TBasic k um) cur)))
            (Some (Join ErrInvalidIntValue (NumErr e)))
  end.
Proof.
  intros Hset Hk. destruct (signedValue value) as [z|] eqn:Hv.
  - intros Hin.
    rewrite (setFieldValue_ptr_ok (TBasic k um) fl cur value (VInt z) Hset).
    + reflexivity.
    + eapply signed_field_ok; try eassumption. apply CanSet_ElemFlag, Hset.
  - destruct (signed_field_rejected k w um (reflect.ElemFlag fl)
                (pointee (TBasic k um) cur) value Hk Hv) as [e He].
    exists e. apply setFieldValue_ptr_err; [exact Hset|exact He].
Qed.

Lemma parseDigits_error (s0 : string) (base cutoff maxVal : Z) (s : string) :
  forall n r e,
    strconv.parseDigits s0 base cutoff maxVal n s = (r, Some e) ->
    e = strconv.syntaxError "ParseUint" s0 \/ e = strconv.rangeError "ParseUint" s0.
Proof.
  induction s as [|c s IH]; intros n r e; simpl; [discriminate|].
  destruct (strconv.digit c) as [d|]; [|intros [= _ <-]; left; reflexivity].
  destruct (base <=? d); [intros [= _ <-]; left; reflexivity|].
  destruct (cutoff <=? n); [intros [= _ <-]; right; reflexivity|].
  match goal with
  | |- context [if ?b then _ else _] => destruct b
  end; [intros [= _ <-]; right; reflexivity|apply IH].
Qed.

Lemma ParseUint_error (s : string) (w r : Z) (e : strconv.NumError) :
  1 <= w <= 64 ->
  strconv.ParseUint s 10 w = (r, Some e) ->
  e = strconv.syntaxError "ParseUint" s \/ e = strconv.rangeError "ParseUint" s.
Proof.
  intros Hw. unfold strconv.ParseUint.
  destruct (decide (s = "")); [intros [= _ <-]; left; reflexivity|].
  change (negb ((2 <=? 10) && (10 <=? 36))) with false. cbn iota.
  destruct ((w <? 0) || (64 <? w)) eqn:Hb; [lia|].
  apply parseDigits_error.
Qed.

Lemma ParseInt_error (s : string) (w r : Z) (e : strconv.NumError) :
  1 <= w <= 64 ->
  strconv.ParseInt s 10 w = (r, Some e) ->
  e = strconv.syntaxError "ParseInt" s \/ e = strconv.rangeError "ParseInt" s.
Proof.
  intros Hw. unfold strconv.ParseInt.
  destruct s as [|c s]; [intros [= _ <-]; left; reflexivity|].
  set (s0 := String c s).
  assert (Htail : forall neg s',
    (let '(un, err) := strconv.ParseUint s' 10 w in
     let early :=
       match err with
       | Some e =>
           match strconv.Err e with
           | strconv.ErrRange => None
           | k => Some (strconv.mkNumError "ParseInt" s0 k)
           end
       | None => None
       end in
     match early with
     | Some e => (0, Some e)
     | None =>
         let bitSize := if w =? 0 then strconv.IntSize else w in
         let cutoff := strconv.uint64 (Z.shiftl 1 (bitSize - 1)) in
         if negb neg && (cutoff <=? un)
         then (strconv.int64 (cutoff - 1), Some (strconv.rangeError "ParseInt" s0))
         else if neg && (cutoff <? un)
         then (strconv.int64 (- strconv.int64 cutoff),
               Some (strconv.rangeError "ParseInt" s0))
         else
           let n := strconv.int64 un in
           ((if neg then strconv.int64 (- n) else n), None)
     end) = (r, Some e) ->
    e = strconv.syntaxError "ParseInt" s0 \/ e = strconv.rangeError "ParseInt" s0).
  { intros neg s'.
    destruct (strconv.ParseUint s' 10 w) as [un [e'|]] eqn:Hu; cbv zeta.
    - destruct (ParseUint_error _ _ _ _ Hw Hu) as [-> | ->]; simpl strconv.Err;
        cbv iota.
      + intros [= _ <-]. left. reflexivity.
      + repeat match goal with
               | |- context [if ?b then _ else _] => destruct b
               end; intros [= _ <-] || discriminate; right; reflexivity.
    - repeat match goal with
             | |- context [if ?b then _ else _] => destruct b
             end; intros [= _ <-] || discriminate; right; reflexivity. }
  destruct (Ascii.eqb c "+"); [apply (Htail false s)|].
  destruct (Ascii.eqb c "-"); [apply (Htail true s)|apply (Htail false s0)].
Qed.

(** X12. The error of an integer field records what failed: it joins
    [ErrInvalidIntValue] with a [*strconv.NumError] that names
    [ParseInt] ([ParseUint] for the unsigned kinds), holds the slice
    itself, and is a syntax or a range error; the field is unchanged. *)
Theorem integer_error_records_slice (um : option Unmarshaler)
    (fl : reflect.flag) (cur : Val) (value : string) (v : Val) (err : error) :
  Forall (fun kw : reflect.Kind * Z =>
            setFieldValue (TBasic kw.1 um) fl cur value = Returned v (Some err) ->
            v = cur
            /\ (err = Join ErrInvalidIntValue
                        (NumErr (strconv.mkNumError "ParseInt" value strconv.ErrSyntax))
                \/ err = Join ErrInvalidIntValue
                           (NumErr (strconv.mkNumError "ParseInt" value strconv.ErrRange))))
         signedKinds
  /\ Forall (fun kw : reflect.Kind * Z =>
               setFieldValue (TBasic kw.1 um) fl cur value = Returned v (Some err) ->
               v = cur
               /\ (err = Join ErrInvalidIntValue
                           (NumErr (strconv.mkNumError "ParseUint" value strconv.ErrSyntax))
                   \/ err = Join ErrInvalidIntValue
                              (NumErr (strconv.mkNumError "ParseUint" value strconv.ErrRange))))
            unsignedKinds.
Proof.
  split; apply Forall_forall; intros [k w] Hk; cbn [fst snd].
  - destruct (signed_field_unfold k w um fl cur value Hk) as (-> & Hw & Hbits & _).
    destruct (strconv.ParseInt value 10 w) as [r [e|]] eqn:Hp.
    + intros [= <- <-]. split; [reflexivity|].
      destruct (ParseInt_error value w r e ltac:(lia) Hp) as [-> | ->]; [left|right];
        reflexivity.
    + unfold SetInt. destruct (reflect.CanSet fl); [destruct k|]; discriminate.
  - destruct (unsigned_field_unfold k w um fl cur value Hk) as (-> & Hw & Hbits & _).
    destruct (strconv.ParseUint value 10 w) as [r [e|]] eqn:Hp.
    + intros [= <- <-]. split; [reflexivity|].
      destruct (ParseUint_error value w r e ltac:(lia) Hp) as [-> | ->]; [left|right];
        reflexivity.
    + unfold SetUint. destruct (reflect.CanSet fl); [destruct k|]; discriminate.
Qed.

(** X13. A pointer to bool after a call that returns no error is nil or
    points to [true], never to [false]: every false token of
    [strconv.ParseBool] leaves the pointer nil and every true token
    leaves it pointing to [true].  A slice that is no token returns an
    error wrapping [ErrInvalidBooleanValue], and the pointer is then left
    non-nil on its unchanged pointee, which for a nil pointer is a fresh
    [false]. *)
Theorem bool_pointer_false_is_nil (um : option Unmarshaler) (fl : reflect.flag)
    (cur : Val) (value : string) :
  reflect.CanSet fl = true ->
  (value ∈ strconv.falseTokens ->
   setFieldValue (TPtr (TBasic reflect.Bool um)) fl cur value = Returned (VPtr None) None)
  /\ (value ∈ strconv.trueTokens ->
      setFieldValue (TPtr (TBasic reflect.Bool um)) fl cur value
      = Returned (VPtr (Some (VBool true))) None)
  /\ (value ∉ strconv.trueTokens -> value ∉ strconv.falseTokens ->
      exists err,
        setFieldValue (TPtr (TBasic reflect.Bool um)) fl cur value
        = Returned (VPtr (Some (pointee (TBasic reflect.Bool um) cur))) (Some err)
        /\ Is err ErrInvalidBooleanValue = true
        /\ (IsNil cur = true ->
            pointee (TBasic reflect.Bool um) cur = VBool false))
  /\ (forall r,
        setFieldValue (TPtr (TBasic reflect.Bool um)) fl cur value = Returned r None ->
        r = VPtr None \/ r = VPtr (Some (VBool true))).
Proof.
  intros Hset.
  assert (Hbool : forall b,
             strconv.ParseBool value = (b, None) ->
             setFieldValue (TPtr (TBasic reflect.Bool um)) fl cur value
             = Returned (if negb b then VPtr None else VPtr (Some (VBool b))) None).
  { intros b Hp.
    rewrite (setFieldValue_ptr_ok (TBasic reflect.Bool um) fl cur value
               (VBool b) Hset); [reflexivity|].
    simpl. rewrite Hp. unfold SetBool. rewrite (CanSet_ElemFlag _ Hset). reflexivity. }
  assert (Hfalse : value ∈ strconv.falseTokens ->
                   strconv.ParseBool value = (false, None)).
  { intros Hin. unfold strconv.ParseBool.
    destruct (decide (value ∈ strconv.trueTokens)) as [Ht|_].
    - exfalso. revert Ht Hin. unfold strconv.trueTokens, strconv.falseTokens.
      rewrite !elem_of_cons, !elem_of_nil. intuition congruence.
    - destruct (decide (value ∈ strconv.falseTokens)); [reflexivity|contradiction]. }
  assert (Htrue : value ∈ strconv.trueTokens ->
                  strconv.ParseBool value = (true, None)).
  { intros Hin. unfold strconv.ParseBool.
    destruct (decide (value ∈ strconv.trueTokens)); [reflexivity|contradiction]. }
  assert (Hbad : value ∉ strconv.trueTokens -> value ∉ strconv.falseTokens ->
                 setFieldValue (TPtr (TBasic reflect.Bool um)) fl cur value
                 = Returned (VPtr (Some (pointee (TBasic reflect.Bool um) cur)))
                     (Some (Join ErrInvalidBooleanValue
                              (NumErr (strconv.syntaxError "ParseBool" value))))).
  { intros Ht Hf.
    apply (setFieldValue_ptr_err (TBasic reflect.Bool um) fl cur value _ _ Hset).
    simpl. unfold strconv.ParseBool.
    destruct (decide (value ∈ strconv.trueTokens)); [contradiction|].
    destruct (decide (value ∈ strconv.falseTokens)); [contradiction|].
    reflexivity. }
  split; [|split; [|split]].
  - intros Hin. apply (Hbool false), Hfalse, Hin.
  - intros Hin. apply (Hbool true), Htrue, Hin.
  - intros Ht Hf. eexists. split; [apply Hbad; assumption|].
    split; [reflexivity|].
    intros Hnil. unfold pointee. rewrite Hnil. reflexivity.
  - intros r Hr.
    destruct (decide (value ∈ strconv.trueTokens)) as [Ht|Ht].
    { right. rewrite (Hbool true (Htrue Ht)) in Hr. injection Hr as <-. reflexivity. }
    destruct (decide (value ∈ strconv.falseTokens)) as [Hf|Hf].
    { left. rewrite (Hbool false (Hfalse Hf)) in Hr. injection Hr as <-. reflexivity. }
    rewrite (Hbad Ht Hf) in Hr. discriminate.
Qed.

(** X14. Through any number of pointers, when the base value of a nil
    field fails to decode the error is returned and every pointer on the
    way is left allocated. *)
Theorem pointer_chain_left_allocated (t : GoType) (fl : reflect.flag)
    (value : string) (v : Val) (err : error) (n : nat) :
  reflect.CanSet fl = true ->
  setFieldValue t (reflect.ElemFlag fl) (Zero t) value = Returned v (Some err) ->
  setFieldValue (ptrTo (S n) t) fl (VPtr None) value
  = Returned (boxed (S n) v) (Some err).
Proof.
  intros Hset Hbase. revert fl Hset Hbase.
  induction n as [|n IH]; intros fl Hset Hbase.
  - apply (setFieldValue_ptr_err t fl (VPtr None) value v err Hset Hbase).
  - change (ptrTo (S (S n)) t) with (TPtr (ptrTo (S n) t)).
    change (boxed (S (S n)) v) with (VPtr (Some (boxed (S n) v))).
    apply setFieldValue_ptr_err; [exact Hset|].
    apply IH; [apply CanSet_ElemFlag, Hset|exact Hbase].
Qed.

End Properties.

(** ** The theorems at concrete fields and records *)

#[local] Existing Instance noFloat.

Lemma string_field_verbatim_witness :
  @setFieldValue noFloat tString fieldFlag (VString "") "  Olivia  "
  = Returned (VString "  Olivia  ") None.
Proof.
  apply (string_field_verbatim None fieldFlag (VString "") "  Olivia  ").
  reflexivity.
Defined.

Lemma bool_field_tokens_witness :
  @setFieldValue noFloat (TBasic reflect.Bool None) fieldFlag (VBool false) "TRUE"
  = Returned (VBool true) None.
Proof.
  apply (bool_field_tokens None fieldFlag (VBool false) "TRUE").
  - reflexivity.
  - apply (bool_decide_unpack _). vm_compute. exact I.
Defined.

Lemma pointer_field_nil_iff_zero_witness :
  exists v,
    @setFieldValue noFloat tInt (reflect.ElemFlag fieldFlag)
      (pointee tInt (VPtr None)) "0" = Returned v None
    /\ (IsNil (VPtr None) = true <-> IsZero v = true)
    /\ (IsZero v = false -> VPtr None = VPtr (Some v)).
Proof.
  apply (pointer_field_nil_iff_zero tInt fieldFlag (VPtr None) "0" (VPtr None)).
  - reflexivity.
  - vm_compute. reflexivity.
Defined.

Lemma nil_pointer_left_allocated_on_error_witness :
  @setFieldValue noFloat (TPtr tInt) fieldFlag (VPtr None) "ab12"
  = Returned (VPtr (Some (VInt 0)))
      (Some (Join ErrInvalidIntValue (NumErr (strconv.syntaxError "ParseInt" "ab12")))).
Proof.
  apply (nil_pointer_left_allocated_on_error tInt fieldFlag "ab12").
  - reflexivity.
  - exists (VInt 0). split; vm_compute; reflexivity.
Defined.

Lemma valid_declarations_parsed_witness :
  parseRange "0,20" = inr (mkRange 0 (EndAt 20))
  /\ parseRange "0,-1" = inr (mkRange 0 RestOfLine).
Proof.
  destruct (valid_declarations_parsed 0 20) as [H1 H2]; [lia|].
  split; [apply H1; lia|exact H2].
Defined.

Lemma invalid_declarations_rejected_witness :
  (exists msg, parseRange "5,5" = inl (ErrInvalidRange msg))
  /\ (exists msg, parseRange "a,5" = inl (ErrInvalidRange msg))
  /\ (exists msg, forall line target,
        @Unmarshal noFloat line (TStruct [exBadField] None) target
        = Returned target (Some (ErrInvalidRange msg))).
Proof.
  destruct (@invalid_declarations_rejected noFloat) as (_ & _ & H3 & H4 & H5).
  split; [|split].
  - apply (H4 "5" "5" 5 5); [reflexivity|reflexivity|left; reflexivity].
  - apply (H3 "a" "5"). left. reflexivity.
  - apply (H5 [exBadField] None exBadField "5,5" "start equals end").
    + apply list_elem_of_singleton. reflexivity.
    + reflexivity.
    + reflexivity.
Defined.

Lemma nested_struct_decoded_from_whole_line_witness :
  exists vs vs',
    [VString ""; VStruct [VString ""; VInt 0; VString ""]] !! 1%nat
    = Some (VStruct vs)
    /\ [VString "ab"; VStruct [VString "ab"; VInt 12; VString "cd"]] !! 1%nat
       = Some (VStruct vs')
    /\ @Unmarshal noFloat "ab12cd" (Typ exBody) vs = Returned vs' None
    /\ forall j g d,
         [ mkStructField "A" (Some "0,2") tString;
           mkStructField "B" (Some "2,4") tInt;
           mkStructField "C" (Some "4,6") tString ] !! j = Some g ->
         Tag g = Some d -> descends (Typ g) = false ->
         exists r' cur v,
           parseRange d = inr r' /\ vs !! j = Some cur /\ vs' !! j = Some v
           /\ setFieldValue (Typ g) fieldFlag cur (sliceLine r' "ab12cd")
              = Returned v None.
Proof.
  destruct (nested_struct_decoded_from_whole_line "ab12cd" exOuterFields
              [ mkStructField "A" (Some "0,2") tString;
                mkStructField "B" (Some "2,4") tInt;
                mkStructField "C" (Some "4,6") tString ]
              None 1%nat exBody "0,1"
              [ Leaf 0 "Head" tString (mkRange 0 (EndAt 2));
                Nested 1 "Body" (mkRange 0 (EndAt 1))
                  [ Leaf 0 "A" tString (mkRange 0 (EndAt 2));
                    Leaf 1 "B" tInt (mkRange 2 (EndAt 4));
                    Leaf 2 "C" tString (mkRange 4 (EndAt 6)) ] ])
    as (r & sub & _ & _ & _ & Hok & _).
  - reflexivity.
  - reflexivity.
  - reflexivity.
  - vm_compute. reflexivity.
  - apply Hok. vm_compute. reflexivity.
Defined.

Lemma unmarshal_fail_fast_witness :
  @Unmarshal noFloat "abxxcd" exRecord [VString ""; VInt 0; VString ""]
  = Returned [VString "ab"; VInt 0; VString ""]
      (Some (FieldError "B" "xx"
               (Join ErrInvalidIntValue (NumErr (strconv.syntaxError "ParseInt" "xx"))))).
Proof.
  apply (unmarshal_fail_fast "abxxcd" exRecord
           [Leaf 0 "A" tString (mkRange 0 (EndAt 2))]
           [Leaf 2 "C" tString (mkRange 4 (EndAt 6))]
           (Leaf 1 "B" tInt (mkRange 2 (EndAt 4)))
           [VString ""; VInt 0; VString ""]
           [VString "ab"; VInt 0; VString ""]
           (VInt 0) (VInt 0)
           (Join ErrInvalidIntValue (NumErr (strconv.syntaxError "ParseInt" "xx")))).
  - vm_compute. reflexivity.
  - vm_compute. reflexivity.
  - reflexivity.
  - vm_compute. reflexivity.
Defined.

(** ** The further properties at concrete fields *)

Lemma settable_field_never_panics_witness :
  reflect.CanSet fieldFlag = true
  /\ exists v err, setFieldValue (TPtr tInt) fieldFlag (VPtr None) "12" = Returned v err.
Proof.
  split; [reflexivity|].
  apply (settable_field_never_panics (TPtr tInt) fieldFlag (VPtr None) "12").
  reflexivity.
Defined.

Lemma read_only_field_never_set_witness :
  setFieldValue tInt (reflect.mkFlag true true) (VInt 0) "12" <> Returned (VInt 12) None.
Proof.
  apply (read_only_field_never_set tInt (reflect.mkFlag true true) (VInt 0) "12" (VInt 12));
    reflexivity.
Defined.

Lemma failure_leaves_field_unchanged_witness :
  setFieldValue (TPtr tInt) fieldFlag (VPtr (Some (VInt 7))) "7x"
  = Returned (VPtr (Some (VInt 7)))
      (Some (Join ErrInvalidIntValue (NumErr (strconv.syntaxError "ParseInt" "7x"))))
  /\ VPtr (Some (VInt 7)) = VPtr (Some (VInt 7)).
Proof.
  split; [vm_compute; reflexivity|].
  apply (failure_leaves_field_unchanged (TPtr tInt) fieldFlag (VPtr (Some (VInt 7)))
           "7x" (VPtr (Some (VInt 7)))
           (Join ErrInvalidIntValue (NumErr (strconv.syntaxError "ParseInt" "7x"))));
    vm_compute; reflexivity.
Defined.

Lemma error_matches_one_sentinel_witness :
  Kind (baseType (TPtr (TBasic reflect.Uintptr None))) <> reflect.String
  /\ forall s, s ∈ sentinels ->
       Is (Errorf ErrUnsupportedKind reflect.Uintptr) s
       = bool_decide (s = sentinelOf (Kind (baseType (TPtr (TBasic reflect.Uintptr None))))).
Proof.
  apply (error_matches_one_sentinel (TPtr (TBasic reflect.Uintptr None)) fieldFlag
           (VPtr None) "5" (VPtr (Some (VUint 0)))
           (Errorf ErrUnsupportedKind reflect.Uintptr));
    vm_compute; reflexivity.
Defined.

Lemma success_overwrites_field_witness :
  setFieldValue tInt fieldFlag (VInt 99) "12" = Returned (VInt 12) None
  /\ setFieldValue tInt fieldFlag (VInt 12) "12" = Returned (VInt 12) None.
Proof.
  apply (success_overwrites_field tInt fieldFlag (VInt 0) (VInt 99) "12" (VInt 12));
    vm_compute; reflexivity.
Defined.

Lemma pointer_chain_collapses_witness :
  setFieldValue (TPtr (TPtr (TPtr tInt))) fieldFlag (VPtr None) "0"
  = Returned (VPtr None) None.
Proof.
  apply (pointer_chain_collapses tInt fieldFlag "0" (VInt 0) 2);
    vm_compute; reflexivity.
Defined.

Lemma integer_field_rejects_padding_witness :
  Forall (fun kw : reflect.Kind * Z =>
            exists e, setFieldValue (TBasic kw.1 None) fieldFlag (VInt 0) " 12"
                      = Returned (VInt 0) (Some (Join ErrInvalidIntValue (NumErr e))))
         (signedKinds ++ unsignedKinds)%list.
Proof.
  apply (integer_field_rejects_padding None fieldFlag (VInt 0) " 12").
  right. exists " "%char. repeat split; try discriminate.
  apply (bool_decide_unpack _). vm_compute. exact I.
Defined.

Lemma leading_sign_handling_witness :
  Forall (fun kw : reflect.Kind * Z =>
            exists e, setFieldValue (TBasic kw.1 None) fieldFlag (VUint 0) "+5"
                      = Returned (VUint 0) (Some (Join ErrInvalidIntValue (NumErr e))))
         unsignedKinds.
Proof.
  apply (leading_sign_handling None fieldFlag (VUint 0) "+" "5").
  left. reflexivity.
Defined.

Lemma decimal_text_round_trip_witness :
  setFieldValue (TBasic reflect.Int64 None) fieldFlag (VInt 0) "00042"
  = Returned (VInt 42) None.
Proof.
  destruct (decimal_text_round_trip None fieldFlag (VInt 0) 42 eq_refl) as [Hs _].
  rewrite Forall_forall in Hs.
  destruct (Hs (reflect.Int64, 64)) as [_ Hpad].
  - apply (bool_decide_unpack _). vm_compute. exact I.
  - reflexivity.
  - apply (Hpad ltac:(lia) 3%nat).
Defined.

Lemma string_pointer_nil_iff_empty_witness :
  setFieldValue (TPtr tString) fieldFlag (VPtr None) "  "
  = Returned (VPtr (Some (VString "  "))) None.
Proof.
  apply (string_pointer_nil_iff_empty None fieldFlag (VPtr None) "  ").
  reflexivity.
Defined.

Lemma integer_pointer_zero_is_nil_witness :
  setFieldValue (TPtr (TBasic reflect.Int64 None)) fieldFlag (VPtr None) "000"
  = Returned (VPtr None) None.
Proof.
  apply (integer_pointer_zero_is_nil reflect.Int64 64 None fieldFlag (VPtr None) "000").
  - reflexivity.
  - apply (bool_decide_unpack _). vm_compute. exact I.
  - reflexivity.
Defined.

Lemma integer_error_records_slice_witness :
  VInt 3 = VInt 3
  /\ (Join ErrInvalidIntValue (NumErr (strconv.rangeError "ParseInt" "128"))
      = Join ErrInvalidIntValue
          (NumErr (strconv.mkNumError "ParseInt" "128" strconv.ErrSyntax))
      \/ Join ErrInvalidIntValue (NumErr (strconv.rangeError "ParseInt" "128"))
         = Join ErrInvalidIntValue
             (NumErr (strconv.mkNumError "ParseInt" "128" strconv.ErrRange))).
Proof.
  destruct (integer_error_records_slice None fieldFlag (VInt 3) "128" (VInt 3)
              (Join ErrInvalidIntValue (NumErr (strconv.rangeError "ParseInt" "128"))))
    as [Hs _].
  rewrite Forall_forall in Hs.
  apply (Hs (reflect.Int8, 8)).
  - apply (bool_decide_unpack _). vm_compute. exact I.
  - vm_compute. reflexivity.
Defined.

Lemma bool_pointer_false_is_nil_witness :
  setFieldValue (TPtr (TBasic reflect.Bool None)) fieldFlag (VPtr None) "false"
  = Returned (VPtr None) None
  /\ exists err,
       setFieldValue (TPtr (TBasic reflect.Bool None)) fieldFlag (VPtr None) "Y"
       = Returned (VPtr (Some (pointee (TBasic reflect.Bool None) (VPtr None))))
           (Some err)
       /\ Is err ErrInvalidBooleanValue = true
       /\ (IsNil (VPtr None) = true ->
           pointee (TBasic reflect.Bool None) (VPtr None) = VBool false).
Proof.
  split.
  - apply (bool_pointer_false_is_nil None fieldFlag (VPtr None) "false").
    + reflexivity.
    + apply (bool_decide_unpack _). vm_compute. exact I.
  - apply (bool_pointer_false_is_nil None fieldFlag (VPtr None) "Y").
    + reflexivity.
    + apply (bool_decide_unpack _). vm_compute. exact I.
    + apply (bool_decide_unpack _). vm_compute. exact I.
Defined.

Lemma pointer_chain_left_allocated_witness :
  setFieldValue (TPtr (TPtr tInt)) fieldFlag (VPtr None) "zz"
  = Returned (VPtr (Some (VPtr (Some (VInt 0)))))
      (Some (Join ErrInvalidIntValue (NumErr (strconv.syntaxError "ParseInt" "zz")))).
Proof.
  apply (pointer_chain_left_allocated tInt fieldFlag "zz" (VInt 0)
           (Join ErrInvalidIntValue (NumErr (strconv.syntaxError "ParseInt" "zz"))) 1);
    vm_compute; reflexivity.
Defined.
